(** * The music module of haru: resolver, queue coordination and skip votes

    A shallow embedding of [src/modules/music/Music.js].  The class keeps
    per-guild maps (bound text channel, volume; [skip] uses a map of
    votes that the class never creates), talks to a cache, to the ytdl resolver, to the queue module and to the player
    module, and every method is an [async] function: here a method is a
    function from the state of the module to a new state and an outcome
    (resolved value or rejection), run to completion.

    Conventions.
    - JavaScript strings are byte strings ([string]); the model agrees
      with JavaScript on ASCII text.
    - What [parseInt] returns, and the time stamps computed from it,
      are integers as a double holds them ([Dbl.t]): exact below 2^53,
      rounded above, with [NaN] and the infinities.  Counts of members
      and votes are integers in [Z]; numbers that come out of
      [JSON.parse], and the volume that [setVolume] computes from a
      percent, are exact rationals ([Q]).
    - A value that is only tested for truthiness keeps the JavaScript
      notion of truthiness ([truthy]). *)

From Stdlib Require Import ZArith QArith String Ascii List Bool Sorted Lia.
From stdpp Require Import base gmap strings list.
Import ListNotations.

Local Open Scope string_scope.
Local Open Scope list_scope.
Local Open Scope Z_scope.

(** ** JavaScript values *)

Module Js.

(** A number: [NaN], an infinity, or an exact rational. *)
Inductive Num : Type :=
| NaN
| Inf (negative : bool)
| Fin (q : Q).

(** The values that flow through the module as "media info": what
    [JSON.parse] can return, plus [undefined]. *)
#[warnings="-register-all"]
Inductive Val : Type :=
| VUndefined
| VNull
| VBool (b : bool)
| VNum (n : Num)
| VStr (s : string)
| VArr (elems : list Val)
| VObj (fields : list (string * Val)).

Definition of_Z (z : Z) : Num := Fin (inject_Z z).

Definition num_truthy (n : Num) : bool :=
  match n with
  | NaN => false
  | Inf _ => true
  | Fin q => negb (Qeq_bool q 0)
  end.

(** [if (v)], [!v], [v && ...], [v || ...]. *)
Definition truthy (v : Val) : bool :=
  match v with
  | VUndefined | VNull => false
  | VBool b => b
  | VNum n => num_truthy n
  | VStr s => negb (String.eqb s "")
  | VArr _ | VObj _ => true
  end.

(** [typeof v === 'object']: [null], arrays and objects. *)
Definition typeof_object (v : Val) : bool :=
  match v with
  | VNull | VArr _ | VObj _ => true
  | _ => false
  end.

(** The last binding of a key wins, as in [JSON.parse]. *)
Fixpoint lookup_field (k : string) (fields : list (string * Val)) : option Val :=
  match fields with
  | [] => None
  | (k', v) :: rest =>
      match lookup_field k rest with
      | Some w => Some w
      | None => if String.eqb k k' then Some v else None
      end
  end.

(** [v.k] for a property name [k].  [None] is the [TypeError] of a
    property read on [undefined] or [null]. *)
Definition get (v : Val) (k : string) : option Val :=
  match v with
  | VUndefined | VNull => None
  | VBool _ | VNum _ => Some VUndefined
  | VStr s =>
      Some (if String.eqb k "length" then VNum (of_Z (Z.of_nat (String.length s)))
            else VUndefined)
  | VArr l =>
      Some (if String.eqb k "length" then VNum (of_Z (Z.of_nat (List.length l)))
            else VUndefined)
  | VObj fields =>
      Some (match lookup_field k fields with Some w => w | None => VUndefined end)
  end.

(** Whether two values read the same, part by part. *)
Definition num_eqb (a b : Num) : bool :=
  match a, b with
  | NaN, NaN => true
  | Inf x, Inf y => Bool.eqb x y
  | Fin p, Fin q => (Qnum p =? Qnum q) && Pos.eqb (Qden p) (Qden q)
  | _, _ => false
  end.

Fixpoint val_eqb (a b : Val) : bool :=
  match a, b with
  | VUndefined, VUndefined | VNull, VNull => true
  | VBool x, VBool y => Bool.eqb x y
  | VNum x, VNum y => num_eqb x y
  | VStr x, VStr y => String.eqb x y
  | VArr l, VArr l' =>
      (fix all l l' :=
         match l, l' with
         | [], [] => true
         | x :: r, y :: r' => val_eqb x y && all r r'
         | _, _ => false
         end) l l'
  | VObj l, VObj l' =>
      (fix all l l' :=
         match l, l' with
         | [], [] => true
         | (k, x) :: r, (k', y) :: r' =>
             String.eqb k k' && val_eqb x y && all r r'
         | _, _ => false
         end) l l'
  | _, _ => false
  end.

End Js.

(** ** Integers as doubles

    What [parseInt] returns and what the subtractions of [getInfo]
    compute: [NaN], an infinity, or an integer that a double holds.
    An integer below 2^53 in magnitude is held exactly; a larger one
    keeps 53 significant bits, rounded to nearest with ties to even,
    and becomes an infinity from 2^1024 on. *)

Module Dbl.

Inductive t : Type :=
| NaN
| Inf (negative : bool)
| Int (z : Z).

(** The double nearest to a non-negative integer [a] of 2^53 or more:
    [a] is cut to the 53 bits above [2^e]. *)
Definition nearest (a : Z) : Z :=
  let e := Z.log2 a - 52 in
  let q := a / 2 ^ e in
  let r := a mod 2 ^ e in
  let half := 2 ^ (e - 1) in
  let q := if (half <? r) || ((r =? half) && Z.odd q) then q + 1 else q in
  q * 2 ^ e.

Definition round (z : Z) : t :=
  let a := Z.abs z in
  if a <? 2 ^ 53 then Int z
  else
    let v := nearest a in
    if 2 ^ 1024 <=? v then Inf (z <? 0)
    else Int (Z.sgn z * v).

(** [x - k] and [k - x] for an integer [k] that a double holds. *)
Definition sub (x : t) (k : Z) : t :=
  match x with
  | Int z => round (z - k)
  | Inf n => Inf n
  | NaN => NaN
  end.

Definition rsub (k : Z) (x : t) : t :=
  match x with
  | Int z => round (k - z)
  | Inf n => Inf (negb n)
  | NaN => NaN
  end.

Definition truthy (x : t) : bool :=
  match x with
  | NaN => false
  | Inf _ => true
  | Int z => negb (z =? 0)
  end.

Definition to_num (x : t) : Js.Num :=
  match x with
  | NaN => Js.NaN
  | Inf n => Js.Inf n
  | Int z => Js.of_Z z
  end.

End Dbl.

(** ** Strings: character classes, [parseInt], [RegExp.exec], [replace] *)

Module Str.

Definition code (c : ascii) : Z := Z.of_N (N_of_ascii c).

Definition is_digit (c : ascii) : bool := (48 <=? code c) && (code c <=? 57).

(** The ASCII part of JavaScript's WhiteSpace and LineTerminator:
    TAB, LF, VT, FF, CR and SPACE. *)
Definition is_space (c : ascii) : bool :=
  ((9 <=? code c) && (code c <=? 13)) || (code c =? 32).

(** Value of a hexadecimal digit, if [c] is one. *)
Definition hex_value (c : ascii) : option Z :=
  let n := code c in
  if (48 <=? n) && (n <=? 57) then Some (n - 48)
  else if (97 <=? n) && (n <=? 102) then Some (n - 87)
  else if (65 <=? n) && (n <=? 70) then Some (n - 55)
  else None.

(** Value of a digit in the given radix (2, 8, 10 or 16). *)
Definition digit_value (radix : Z) (c : ascii) : option Z :=
  match hex_value c with
  | Some d => if d <? radix then Some d else None
  | None => None
  end.

Fixpoint skip_spaces (s : string) : string :=
  match s with
  | String c rest => if is_space c then skip_spaces rest else s
  | EmptyString => s
  end.

(** [strip_prefix p s] is the rest of [s] after the prefix [p]. *)
Fixpoint strip_prefix (p s : string) : option string :=
  match p with
  | EmptyString => Some s
  | String a p' =>
      match s with
      | String b s' => if Ascii.eqb a b then strip_prefix p' s' else None
      | EmptyString => None
      end
  end.

(** Longest prefix of digits in [radix], read from an accumulator:
    the value, how many digits were read, and the rest. *)
Fixpoint read_digits (radix : Z) (acc : Z) (count : nat) (s : string)
  : Z * nat * string :=
  match s with
  | String c rest =>
      match digit_value radix c with
      | Some d => read_digits radix (acc * radix + d) (S count) rest
      | None => (acc, count, s)
      end
  | EmptyString => (acc, count, s)
  end.

(** [parseInt(s)] and [parseInt(s, 10)]: the double nearest to the
    integer the digits denote.  Without a radix a [0x] prefix selects
    radix 16. *)
Definition parseInt_gen (detect_hex : bool) (s : string) : Dbl.t :=
  let s := skip_spaces s in
  let '(sign, s) :=
    match s with
    | String "-" rest => (-1, rest)
    | String "+" rest => (1, rest)
    | _ => (1, s)
    end in
  let '(radix, s) :=
    if detect_hex then
      match s with
      | String "0" (String "x" rest) => (16, rest)
      | String "0" (String "X" rest) => (16, rest)
      | _ => (10, s)
      end
    else (10, s) in
  match read_digits radix 0 0 s with
  | (_, O, _) => Dbl.NaN
  | (v, _, _) => Dbl.round (sign * v)
  end.

Definition parseInt (s : string) : Dbl.t := parseInt_gen true s.

(** The maximal run of decimal digits at the head of [s]. *)
Fixpoint span_digits (s : string) : string * string :=
  match s with
  | String c rest =>
      if is_digit c then
        let '(d, r) := span_digits rest in (String c d, r)
      else (EmptyString, s)
  | EmptyString => (EmptyString, s)
  end.

(** [new RegExp('&expire=([0-9]+)').exec(s)]: the first capture group
    of the leftmost match, [None] when the result is [null]. *)
Fixpoint exec_expire (s : string) : option string :=
  let here :=
    match strip_prefix "&expire=" s with
    | Some after =>
        match span_digits after with
        | (EmptyString, _) => None
        | (d, _) => Some d
        end
    | None => None
    end in
  match here with
  | Some d => Some d
  | None =>
      match s with
      | String _ rest => exec_expire rest
      | EmptyString => None
      end
  end.

(** [s.replace(pat, rep)] with a string pattern: only the first
    occurrence of the literal text [pat] is replaced. *)
Fixpoint replace_first (pat rep s : string) : string :=
  match strip_prefix pat s with
  | Some rest => rep +:+ rest
  | None =>
      match s with
      | String c s' => String c (replace_first pat rep s')
      | EmptyString => EmptyString
      end
  end.

End Str.

(** ** Numeric literals and [ToNumber] *)

Module Numeric.
Import Js Str.

(** The pieces of a decimal literal as they stand in the text. *)
Record Decimal : Type := {
  int_part : string;
  frac_part : option string;   (* digits after a dot, when there is a dot *)
  exponent : option Z
}.

Definition read_sign (s : string) : Z * string :=
  match s with
  | String "-" rest => (-1, rest)
  | String "+" rest => (1, rest)
  | _ => (1, s)
  end.

(** An exponent part [e] or [E], an optional sign, at least one digit. *)
Definition read_exponent (s : string) : option (Z * string) :=
  match s with
  | String c rest =>
      if (code c =? 101) || (code c =? 69) then
        let '(sign, r) := read_sign rest in
        match read_digits 10 0 0 r with
        | (_, O, _) => None
        | (v, _, r') => Some (sign * v, r')
        end
      else None
  | EmptyString => None
  end.

Definition scan_decimal (s : string) : Decimal * string :=
  let '(ip, r1) := span_digits s in
  let '(fp, r2) :=
    match r1 with
    | String "." r => let '(f, r') := span_digits r in (Some f, r')
    | _ => (None, r1)
    end in
  let '(ex, r3) :=
    match read_exponent r2 with
    | Some (e, r) => (Some e, r)
    | None => (None, r2)
    end in
  ({| int_part := ip; frac_part := fp; exponent := ex |}, r3).

Definition decimal_value (d : Decimal) : Q :=
  let f := match frac_part d with Some f => f | None => EmptyString end in
  let e := match exponent d with Some e => e | None => 0 end in
  let '(m, _, _) := read_digits 10 0 0 (int_part d +:+ f) in
  (inject_Z m * Qpower (10 # 1) (e - Z.of_nat (String.length f)))%Q.

Definition nonempty (s : string) : bool := negb (String.eqb s EmptyString).

(** StrDecimalLiteral of ECMAScript: digits with an optional fraction,
    or a fraction that starts with the dot. *)
Definition valid_js_decimal (d : Decimal) : bool :=
  nonempty (int_part d)
  || match frac_part d with Some f => nonempty f | None => false end.

Definition radix_prefix (s : string) : option (Z * string) :=
  match s with
  | String "0" (String c rest) =>
      if (code c =? 120) || (code c =? 88) then Some (16, rest)
      else if (code c =? 111) || (code c =? 79) then Some (8, rest)
      else if (code c =? 98) || (code c =? 66) then Some (2, rest)
      else None
  | _ => None
  end.

Definition only_spaces (s : string) : bool :=
  String.eqb (skip_spaces s) EmptyString.

(** [Number(s)] for a string [s] (StringToNumber). *)
Definition string_to_number (s : string) : Num :=
  let t := skip_spaces s in
  if String.eqb t EmptyString then of_Z 0
  else
    match radix_prefix t with
    | Some (radix, body) =>
        match read_digits radix 0 0 body with
        | (_, O, _) => NaN
        | (v, _, r) => if only_spaces r then of_Z v else NaN
        end
    | None =>
        let '(sign, u) := read_sign t in
        match strip_prefix "Infinity" u with
        | Some r => if only_spaces r then Inf (sign <? 0) else NaN
        | None =>
            let '(d, r) := scan_decimal u in
            if valid_js_decimal d && only_spaces r
            then Fin (inject_Z sign * decimal_value d)%Q
            else NaN
        end
    end.

(** [ToNumber].  An array converts through its [toString]: the empty
    array is the empty string, a one-element array is its element's
    string, and a longer one contains a comma.  A plain object is
    the text [[object Object]], which is no number; objects parsed from
    JSON are taken to keep the default conversion methods. *)
Fixpoint to_number (v : Val) : Num :=
  match v with
  | VUndefined => NaN
  | VNull => of_Z 0
  | VBool b => of_Z (if b then 1 else 0)
  | VNum n => n
  | VStr s => string_to_number s
  | VArr [] => of_Z 0
  | VArr [x] =>
      match x with
      | VUndefined | VNull => of_Z 0
      | VBool _ | VObj _ => NaN
      | _ => to_number x
      end
  | VArr _ => NaN
  | VObj _ => NaN
  end.

(** [v > k] for an integer constant [k]. *)
Definition gt_const (v : Val) (k : Z) : bool :=
  match to_number v with
  | NaN => false
  | Inf negative => negb negative
  | Fin q => negb (Qle_bool q (inject_Z k))
  end.

End Numeric.

(** ** [JSON.parse] *)

Module JSON.
Import Js Str Numeric.

Definition quote : ascii := Ascii.ascii_of_nat 34.

Definition is_ws (c : ascii) : bool :=
  (code c =? 32) || (code c =? 9) || (code c =? 10) || (code c =? 13).

Fixpoint skip_ws (s : string) : string :=
  match s with
  | String c rest => if is_ws c then skip_ws rest else s
  | EmptyString => s
  end.

(** The bytes of a code point below 2^16 (UTF-8). *)
Definition utf8 (n : Z) : string :=
  let byte (z : Z) := ascii_of_N (Z.to_N z) in
  if n <? 128 then String (byte n) EmptyString
  else if n <? 2048 then
    String (byte (192 + n / 64)) (String (byte (128 + n mod 64)) EmptyString)
  else
    String (byte (224 + n / 4096))
      (String (byte (128 + (n / 64) mod 64))
         (String (byte (128 + n mod 64)) EmptyString)).

Definition simple_escape (c : ascii) : option ascii :=
  let n := code c in
  if (n =? 34) || (n =? 92) || (n =? 47) then Some c
  else if n =? 98 then Some (ascii_of_nat 8)
  else if n =? 102 then Some (ascii_of_nat 12)
  else if n =? 110 then Some (ascii_of_nat 10)
  else if n =? 114 then Some (ascii_of_nat 13)
  else if n =? 116 then Some (ascii_of_nat 9)
  else None.

(** The characters of a string literal after its opening quote, and
    the text after the closing quote. *)
Fixpoint string_body (s : string) : option (string * string) :=
  match s with
  | EmptyString => None
  | String c rest =>
      if code c =? 34 then Some (EmptyString, rest)
      else if code c =? 92 then
        match rest with
        | String e rest' =>
            if code e =? 117 then
              match rest' with
              | String h1 (String h2 (String h3 (String h4 rest''))) =>
                  match hex_value h1, hex_value h2, hex_value h3, hex_value h4 with
                  | Some a, Some b, Some c', Some d =>
                      match string_body rest'' with
                      | Some (body, r) =>
                          Some (utf8 (((a * 16 + b) * 16 + c') * 16 + d) +:+ body, r)
                      | None => None
                      end
                  | _, _, _, _ => None
                  end
              | _ => None
              end
            else
              match simple_escape e with
              | Some x =>
                  match string_body rest' with
                  | Some (body, r) => Some (String x body, r)
                  | None => None
                  end
              | None => None
              end
        | EmptyString => None
        end
      else if code c <? 32 then None
      else
        match string_body rest with
        | Some (body, r) => Some (String c body, r)
        | None => None
        end
  end.

(** A JSON number: no leading zeros, no bare dot. *)
Definition valid_json_decimal (d : Decimal) : bool :=
  match int_part d with
  | EmptyString => false
  | String "0" (String _ _) => false
  | _ => true
  end
  && match frac_part d with Some f => nonempty f | None => true end.

Definition number (s : string) : option (Val * string) :=
  let '(sign, u) :=
    match s with
    | String "-" rest => (-1, rest)
    | _ => (1, s)
    end in
  let '(d, r) := scan_decimal u in
  if valid_json_decimal d
  then Some (VNum (Fin (inject_Z sign * decimal_value d)%Q), r)
  else None.

Definition literal (text : string) (v : Val) (s : string) : option (Val * string) :=
  match strip_prefix text s with
  | Some r => Some (v, r)
  | None => None
  end.

(** One value, with the white space before it.  [elements] reads the
    values of an array after the first one was announced, [members]
    the pairs of an object; both stop after the closing bracket. *)
Fixpoint value (fuel : nat) (s : string) : option (Val * string) :=
  match fuel with
  | O => None
  | S fuel =>
      match skip_ws s with
      | EmptyString => None
      | String c rest as t =>
          if code c =? 123 then
            match skip_ws rest with
            | String c' rest' as t' =>
                if code c' =? 125 then Some (VObj [], rest')
                else
                  match members fuel t' with
                  | Some (fs, r) => Some (VObj fs, r)
                  | None => None
                  end
            | EmptyString => None
            end
          else if code c =? 91 then
            match skip_ws rest with
            | String c' rest' as t' =>
                if code c' =? 93 then Some (VArr [], rest')
                else
                  match elements fuel t' with
                  | Some (vs, r) => Some (VArr vs, r)
                  | None => None
                  end
            | EmptyString => None
            end
          else if code c =? 34 then
            match string_body rest with
            | Some (body, r) => Some (VStr body, r)
            | None => None
            end
          else if code c =? 116 then literal "true" (VBool true) t
          else if code c =? 102 then literal "false" (VBool false) t
          else if code c =? 110 then literal "null" VNull t
          else number t
      end
  end
with elements (fuel : nat) (s : string) : option (list Val * string) :=
  match fuel with
  | O => None
  | S fuel =>
      match value fuel s with
      | Some (v, r) =>
          match skip_ws r with
          | String c rest =>
              if code c =? 93 then Some ([v], rest)
              else if code c =? 44 then
                match elements fuel rest with
                | Some (vs, r') => Some (v :: vs, r')
                | None => None
                end
              else None
          | EmptyString => None
          end
      | None => None
      end
  end
with members (fuel : nat) (s : string) : option (list (string * Val) * string) :=
  match fuel with
  | O => None
  | S fuel =>
      match skip_ws s with
      | String q rest =>
          if code q =? 34 then
            match string_body rest with
            | Some (key, r) =>
                match skip_ws r with
                | String colon r1 =>
                    if code colon =? 58 then
                      match value fuel r1 with
                      | Some (v, r2) =>
                          match skip_ws r2 with
                          | String c r3 =>
                              if code c =? 125 then Some ([(key, v)], r3)
                              else if code c =? 44 then
                                match members fuel r3 with
                                | Some (fs, r') => Some ((key, v) :: fs, r')
                                | None => None
                                end
                              else None
                          | EmptyString => None
                          end
                      | None => None
                      end
                    else None
                | EmptyString => None
                end
            | None => None
            end
          else None
      | EmptyString => None
      end
  end.

(** [JSON.parse(text)]; [None] is the [SyntaxError] it throws.  Every
    second call at least consumes a character, so twice the length of
    the text (and a little) is fuel enough. *)
Definition parse (text : string) : option Val :=
  match value (2 * String.length text + 4) text with
  | Some (v, r) => if String.eqb (skip_ws r) EmptyString then Some v else None
  | None => None
  end.

End JSON.

(** ** Data of the module *)

(** One entry of the [formats] list that ytdl returns. *)
Module Format.
Record t : Type := {
  itag : string;
  container : string;
  audioBitrate : option Z;   (* a number, or [null] *)
  bitrate : Js.Val;          (* only ever tested with [!] *)
  url : option string;
  _format : option string    (* absent until [getFormatUrl] tags it *)
}.
End Format.

(** The info object of ytdl, with the two properties [getInfo] writes
    on it ([url], [expires]). *)
Module Raw.
Record t : Type := {
  video_id : option string;
  title : string;
  thumbnail_url : string;
  length_seconds : string;
  formats : list Format.t;
  url : option string;
  expires : option Dbl.t     (* [undefined] or a number *)
}.
End Raw.

(** [formattedInfo]. *)
Module Media.
Record t : Type := {
  video_id : string;
  title : string;
  thumbnail_url : string;
  url : string;
  audiourl : option string;
  audioformat : option string;
  audiotype : string;
  expires : option Dbl.t;    (* [null] or a number *)
  length : Dbl.t
}.
End Media.

(** What [getInfo] resolves to, and so what sits in the queue and is
    handed to the player: the parse of a cache entry, the formatted
    info, or (with [fetchAll]) the whole info of ytdl. *)
Inductive Info : Type :=
| Parsed (v : Js.Val)
| Formatted (m : Media.t)
| Full (r : Raw.t).

Module InfoProp.
Import Js.

Definition truthy (i : Info) : bool :=
  match i with
  | Parsed v => Js.truthy v
  | Formatted _ | Full _ => true
  end.

Definition of_string (o : option string) : Val :=
  match o with Some s => VStr s | None => VUndefined end.

Definition of_int (d : Dbl.t) : Val := VNum (Dbl.to_num d).

(** [i.url], [i.audiourl], [i.length]; [None] is the [TypeError] of a
    property read on [null] or [undefined].  The info of ytdl has a
    [length_seconds] but neither [audiourl] nor [length]. *)
Definition url (i : Info) : option Val :=
  match i with
  | Parsed v => get v "url"
  | Formatted m => Some (VStr (Media.url m))
  | Full r => Some (of_string (Raw.url r))
  end.

Definition audiourl (i : Info) : option Val :=
  match i with
  | Parsed v => get v "audiourl"
  | Formatted m => Some (of_string (Media.audiourl m))
  | Full _ => Some VUndefined
  end.

Definition length (i : Info) : option Val :=
  match i with
  | Parsed v => get v "length"
  | Formatted m => Some (of_int (Media.length m))
  | Full _ => Some VUndefined
  end.
End InfoProp.

(** Rejections.  The first eight are the strings the module rejects
    with; [TypeError] and [SyntaxError] are exceptions thrown inside an
    [async] method, and [Thrown] carries an error of a collaborator. *)
Inductive Err : Type :=
| notChannel | alreadyBinded | noPerms | error
| noVideoFound | invalidURL | tooLong | noSongs
| TypeError | SyntaxError
| Thrown (e : string).

(** The end of an [async] method.  [Unfinished] is not a JavaScript
    outcome: it marks a run of the model that was cut by its recursion
    budget (see [play]). *)
Inductive Outcome (A : Type) : Type :=
| Resolved (a : A)
| Rejected (e : Err)
| Unfinished.
Arguments Resolved {A} a.
Arguments Rejected {A} e.
Arguments Unfinished {A}.

(** The end of a synchronous method. *)
Inductive Completion (A : Type) : Type :=
| Returns (a : A)
| Throws (e : Err).
Arguments Returns {A} a.
Arguments Throws {A} e.

(** ** The collaborators *)

Inductive CacheReply : Type :=
| GetFailed                 (* the promise of [getAsync] rejects *)
| GetNil                    (* no entry: [null] *)
| GetBulk (text : string).

Inductive YtdlReply : Type :=
| YtdlThrows (e : string)
| YtdlReturns (info : option Raw.t).

(** A voice channel, as the module reads it. *)
Record Channel : Type := {
  guild_id : string;              (* [channel.guild.id] *)
  voiceMembers : gset string;     (* ids; the module asks [size] and [has] *)
  members : Z                     (* [channel.members], which [skip] compares
                                     with 2 and divides the vote count by *)
}.

Record Guild : Type := { id : string; name : string }.

Record TextChannel : Type := {
  channel_id : string;            (* [textChannel.id] *)
  guild : option Guild
}.

(** What the collaborators answer while one method runs. *)
Record World : Type := {
  sha256_hex : string -> string;            (* hex digest of the UTF-8 text *)
  redis_getAsync : string -> CacheReply;    (* by key *)
  ytdl_getInfoAsync : string -> YtdlReply;  (* by URL *)
  Date_now : Z;
  client_user_id : string;                  (* [this.client.user.id] *)
  hasPermissions : Guild -> bool;           (* voiceConnect and voiceSpeak *)
  joinVoiceChannel : string -> string + string;   (* error, or the connection *)
  player_play_fails : Channel -> Info -> option string
                                            (* the error of the voice backend *)
}.

(** ** Best audio *)

Section BestAudio.
Import Format.

(** The number [audioBitrate] stands for inside [b - a]: [null] is 0. *)
Definition rate (f : Format.t) : Z :=
  match audioBitrate f with Some n => n | None => 0 end.

(** [f.audioBitrate > 0]. *)
Definition audible (f : Format.t) : bool :=
  match audioBitrate f with Some n => 0 <? n | None => false end.

(** [f.audioBitrate > 0 && !f.bitrate]. *)
Definition audio_only (f : Format.t) : bool :=
  audible f && negb (Js.truthy (bitrate f)).

(** [formats.sort((a, b) => b.audioBitrate - a.audioBitrate)]: by
    decreasing rate, entries of equal rate in their order of arrival
    (the order of ties is the engine's; no property below rests on it). *)
Fixpoint insert_desc (f : Format.t) (l : list Format.t) : list Format.t :=
  match l with
  | [] => [f]
  | g :: rest => if rate f <? rate g then g :: insert_desc f rest else f :: l
  end.

Fixpoint sort_desc (l : list Format.t) : list Format.t :=
  match l with
  | [] => []
  | f :: rest => insert_desc f (sort_desc rest)
  end.

Definition tag (type : string) (f : Format.t) : Format.t :=
  {| itag := itag f; container := container f; audioBitrate := audioBitrate f;
     bitrate := bitrate f; url := url f; _format := Some type |}.

Definition has_url (f : Format.t) : bool :=
  match url f with Some u => negb (String.eqb u EmptyString) | None => false end.

(** The entry [getFormatUrl] binds to [bestaudio]: the first entry of
    the sorted list that is audio only, else the first audible one;
    [None] is [undefined]. *)
Definition bestaudio (formats : list Format.t) : option Format.t :=
  let sorted := sort_desc formats in
  match List.find audio_only sorted with
  | Some f => Some f
  | None => List.find audible sorted
  end.

(** [getFormatUrl].  [Returns None] is the bare [return]; reading
    [bestaudio.url] when no entry is audible throws.  The tag is
    written on the entry itself, which [mediaInfo.formats] shares: the
    entry returned carries it here, and [tagged] below gives the list
    as it is after the write. *)
Definition getFormatUrl (type : string) (formats : list Format.t)
  : Completion (option Format.t) :=
  match bestaudio formats with
  | None => Throws TypeError
  | Some f => if has_url f then Returns (Some (tag type f)) else Returns None
  end.

(** Whether [f] has the fields of [g], the tag apart. *)
Definition same_entry (f g : Format.t) : bool :=
  String.eqb (itag f) (itag g)
  && String.eqb (container f) (container g)
  && match audioBitrate f, audioBitrate g with
     | Some a, Some b => a =? b
     | None, None => true
     | _, _ => false
     end
  && Js.val_eqb (bitrate f) (bitrate g)
  && match url f, url g with
     | Some a, Some b => String.eqb a b
     | None, None => true
     | _, _ => false
     end.

(** [mediaInfo.formats] after [bestaudio._format = type]: the entry
    that was chosen carries the tag, every other entry is as it was.
    The chosen entry is the first that [find] meets in the sorted
    family, so the first of the list with its fields. *)
Fixpoint tagged (best : Format.t) (formats : list Format.t) : list Format.t :=
  match formats with
  | [] => []
  | f :: rest =>
      if same_entry f best then best :: rest else f :: tagged best rest
  end.

(** [[a, b, c].includes(parseInt(f.itag))]. *)
Definition itag_in (family : list Z) (f : Format.t) : bool :=
  match Str.parseInt (itag f) with
  | Dbl.Int n => existsb (Z.eqb n) family
  | _ => false
  end.

Definition webm_itags : list Z := [249; 250; 251].
Definition mp4_itags : list Z := [141; 140; 139].

Definition is_nil {A} (l : list A) : bool :=
  match l with [] => true | _ => false end.

Definition getBestAudio (mediaInfo : Raw.t) : Completion (option Format.t) :=
  let formats := List.filter (itag_in webm_itags) (Raw.formats mediaInfo) in
  if negb (is_nil formats) then getFormatUrl "webm" formats
  else
    let formats := List.filter (itag_in mp4_itags) (Raw.formats mediaInfo) in
    let formats :=
      if is_nil formats
      then List.filter (fun f => String.eqb (container f) "mp4") (Raw.formats mediaInfo)
      else formats in
    if negb (is_nil formats) then getFormatUrl "mp4" formats
    else Returns None.

End BestAudio.

(** ** Resolution: [getInfo] *)

Definition cache_key (w : World) (url : string) : string :=
  "music:info:" +:+ sha256_hex w url.

(** [await this.redis.getAsync(key).catch(() => false)], then [if (info)]:
    the text of the entry when the read answers a non-empty string. *)
Definition cached_text (w : World) (url : string) : option string :=
  match redis_getAsync w (cache_key w url) with
  | GetBulk text => if String.eqb text EmptyString then None else Some text
  | GetNil | GetFailed => None
  end.

(** The expiry a stream URL signals: the number after the first
    [&expire=] that digits follow. *)
Definition signaled_expiry (u : string) : option Dbl.t :=
  match Str.exec_expire u with
  | Some digits => Some (Str.parseInt digits)
  | None => None
  end.

(** [info.expires] after the test of the stream URL: the expiry the URL
    signals less 900, or what the property was. *)
Definition raw_expires (info : Raw.t) (bestaudio : Format.t) : option Dbl.t :=
  match Format.url bestaudio with
  | Some u =>
      if String.eqb u EmptyString then Raw.expires info
      else
        match Str.exec_expire u with
        | Some digits => Some (Dbl.sub (Str.parseInt digits) 900)
        | None => Raw.expires info
        end
  | None => Raw.expires info
  end.

(** [info.expires ? Date.now() - info.expires - 300 : null]. *)
Definition formatted_expires (now : Z) (expires : option Dbl.t)
  : option Dbl.t :=
  match expires with
  | Some e =>
      if Dbl.truthy e then Some (Dbl.sub (Dbl.rsub now e) 300) else None
  | None => None
  end.

(** The live part of [getInfo], from the answer of ytdl on. *)
Definition resolve_live (w : World) (fetchAll : bool) (reply : YtdlReply)
  : Outcome Info :=
  match reply with
  | YtdlThrows e => Rejected (Thrown e)
  | YtdlReturns None => Rejected noVideoFound
  | YtdlReturns (Some info) =>
      match Raw.video_id info with
      | None => Rejected noVideoFound
      | Some vid =>
          if String.eqb vid EmptyString then Rejected noVideoFound
          else
            let url := "https://www.youtube.com/watch?v=" +:+ vid in
            match getBestAudio info with
            | Throws e => Rejected e
            | Returns None => Rejected TypeError      (* [bestaudio.url] of [undefined] *)
            | Returns (Some bestaudio) =>
                let expires := raw_expires info bestaudio in
                let info' :=
                  {| Raw.video_id := Raw.video_id info; Raw.title := Raw.title info;
                     Raw.thumbnail_url := Raw.thumbnail_url info;
                     Raw.length_seconds := Raw.length_seconds info;
                     Raw.formats := tagged bestaudio (Raw.formats info);
                     Raw.url := Some url; Raw.expires := expires |} in
                let formattedInfo :=
                  {| Media.video_id := vid;
                     Media.title := Raw.title info;
                     Media.thumbnail_url := Raw.thumbnail_url info;
                     Media.url := url;
                     Media.audiourl := Format.url bestaudio;
                     Media.audioformat := Format._format bestaudio;
                     Media.audiotype := Format.itag bestaudio;
                     Media.expires := formatted_expires (Date_now w) expires;
                     Media.length := Str.parseInt (Raw.length_seconds info) |} in
                Resolved (if fetchAll then Full info' else Formatted formattedInfo)
            end
      end
  end.

Definition getInfo (w : World) (url : string) (fetchAll : bool) : Outcome Info :=
  match cached_text w url with
  | Some text =>
      match JSON.parse text with
      | Some v => Resolved (Parsed v)
      | None => Rejected SyntaxError
      end
  | None => resolve_live w fetchAll (ytdl_getInfoAsync w url)
  end.

(** ** State of the module and of its collaborators *)

(** What [this.votes] holds for a guild: the array of voters, or the
    number 0 that [skip] stores once the quorum is met. *)
Inductive VoteCell : Type :=
| Voters (ids : list string)
| Zero.

(** A call made on the player module. *)
Inductive Call : Type :=
| CallPlay (channel : Channel) (mediaInfo : Info) (volume : option Js.Num)
| CallStop (channel : Channel) (immediate : bool)
| CallSkip (guildId : string) (channel : option Channel).

(** The maps of the module and what it sees of its collaborators.  The
    constructor creates [connections] and [volume] and no other map:
    [this.votes], which only [skip] reads and writes, is [undefined]
    ([None]) unless something outside the module has put a map there. *)
Record State : Type := {
  connections : gmap string string;       (* [this.connections] *)
  volume : gmap string Js.Num;            (* [this.volume] *)
  votes : option (gmap string VoteCell);  (* [this.votes] *)
  queue : gmap string (list Info);        (* the queue module, per guild *)
  voiceConnections : gmap string bool;    (* guild -> [conn.playing] *)
  calls : list Call;                      (* calls on the player, oldest first *)
  log : list string                       (* [logger.error] *)
}.

Definition with_connections (f : gmap string string -> gmap string string) (st : State) :=
  {| connections := f (connections st); volume := volume st; votes := votes st;
     queue := queue st; voiceConnections := voiceConnections st;
     calls := calls st; log := log st |}.


(** A write into the map of votes, where there is one. *)
Definition with_votes (f : gmap string VoteCell -> gmap string VoteCell) (st : State) :=
  {| connections := connections st; volume := volume st;
     votes := option_map f (votes st);
     queue := queue st; voiceConnections := voiceConnections st;
     calls := calls st; log := log st |}.

Definition with_queue (f : gmap string (list Info) -> gmap string (list Info)) (st : State) :=
  {| connections := connections st; volume := volume st; votes := votes st;
     queue := f (queue st); voiceConnections := voiceConnections st;
     calls := calls st; log := log st |}.

Definition with_voiceConnections (f : gmap string bool -> gmap string bool) (st : State) :=
  {| connections := connections st; volume := volume st; votes := votes st;
     queue := queue st; voiceConnections := f (voiceConnections st);
     calls := calls st; log := log st |}.

Definition with_call (c : Call) (st : State) :=
  {| connections := connections st; volume := volume st; votes := votes st;
     queue := queue st; voiceConnections := voiceConnections st;
     calls := calls st ++ [c]; log := log st |}.

Definition with_log (line : string) (st : State) :=
  {| connections := connections st; volume := volume st; votes := votes st;
     queue := queue st; voiceConnections := voiceConnections st;
     calls := calls st; log := log st ++ [line] |}.

(** An [async] method: from a state to a state and an outcome. *)
Definition M (A : Type) : Type := State -> State * Outcome A.

Definition ret {A} (a : A) : M A := fun st => (st, Resolved a).
Definition reject {A} (e : Err) : M A := fun st => (st, Rejected e).
Definition settle {A} (o : Outcome A) : M A := fun st => (st, o).
Definition update (f : State -> State) : M unit := fun st => (f st, Resolved tt).
Definition read {A} (f : State -> A) : M A := fun st => (st, Resolved (f st)).

(** [await c], then [k] on its value; a rejection ends the method. *)
Definition bind {A B} (c : M A) (k : A -> M B) : M B :=
  fun st =>
    match c st with
    | (st', Resolved a) => k a st'
    | (st', Rejected e) => (st', Rejected e)
    | (st', Unfinished) => (st', Unfinished)
    end.

Notation "'let*' x ':=' c 'in' k" := (bind c (fun x => k))
  (at level 10, x name, c at level 100, k at level 200).
Notation "c ';;' k" := (bind c (fun _ => k))
  (at level 100, k at level 200, right associativity).

(** ** The queue module *)

Module Queue.

Definition items (guildId : string) (st : State) : list Info :=
  match queue st !! guildId with Some q => q | None => [] end.

(** Modelled from the spec: the queue module ([music:queue]) is not in
    this file.  [add(sessionId, item, playNow=false)]: append, or
    insert at the front if [playNow]. *)
Definition add (guildId : string) (item : Info) (playNow : bool) : M unit :=
  fun st =>
    let q := items guildId st in
    let q' := if playNow then item :: q else q ++ [item] in
    (with_queue <[guildId := q']> st, Resolved tt).

(** Modelled from the spec: [length(sessionId)], an integer that is
    at least 0. *)
Definition getLength (guildId : string) : M Z :=
  read (fun st => Z.of_nat (List.length (items guildId st))).

(** Modelled from the spec: [shift(sessionId)] removes and returns the
    front item; it fails with [QueueEmpty] if there is none. *)
Definition shift (guildId : string) : M Info :=
  fun st =>
    match items guildId st with
    | [] => (st, Rejected (Thrown "QueueEmpty"))
    | item :: rest => (with_queue <[guildId := rest]> st, Resolved item)
    end.

(** Modelled from the spec: [remove(sessionId)] clears the entire
    queue of the session. *)
Definition remove (guildId : string) : M unit :=
  update (with_queue (delete guildId)).

End Queue.

(** ** The player module *)

Inductive PlayReply : Type :=
| Started        (* what [player.play] resolves to *)
| Stopped.       (* what [player.stop] resolves to *)

Definition getPlayingState (channel : Channel) (st : State) : bool :=
  match voiceConnections st !! guild_id channel with
  | Some playing => playing
  | None => false
  end.

Module Player.

(** Modelled from the spec: the player module ([music:player]) is not
    in this file.  [play(channel, metadata, volume)] hands the item to
    the voice backend; a failure of the backend is a rejection, and
    after a successful play the session is Playing.  The call is
    recorded either way.  The spec names the queue among the
    collaborators of the module and not among the things the player
    handles, so this player leaves the queue as it finds it. *)
Definition play (w : World) (channel : Channel) (mediaInfo : Info)
    (vol : option Js.Num) : M PlayReply :=
  fun st =>
    let st := with_call (CallPlay channel mediaInfo vol) st in
    match player_play_fails w channel mediaInfo with
    | Some e => (st, Rejected (Thrown e))
    | None =>
        (with_voiceConnections <[guild_id channel := true]> st, Resolved Started)
    end.

(** Modelled from the spec: [stop(channel, immediate?)] ends the
    active stream of the session, which is Idle afterwards. *)
Definition stop (channel : Channel) (immediate : bool) : M PlayReply :=
  fun st =>
    let st := with_call (CallStop channel immediate) st in
    (with_voiceConnections (alter (fun _ => false) (guild_id channel)) st,
     Resolved Stopped).

(** Modelled from the spec: [skip(sessionId, channel)], the skip of
    the external player. *)
Definition skip (guildId : string) (channel : option Channel) : M unit :=
  update (with_call (CallSkip guildId channel)).

End Player.

(** ** The methods of the module *)

Definition bindChannel (guildID textChannelID : string) (st : State) : State :=
  with_connections <[guildID := textChannelID]> st.

Definition unbindChannel (guildID : string) (st : State) : State :=
  with_connections (delete guildID) st.

(** [this.connections.get(guildID) || null]; [None] is [null]. *)
Definition getBoundChannel (guildID : string) (st : State) : option string :=
  match connections st !! guildID with
  | Some c => if String.eqb c EmptyString then None else Some c
  | None => None
  end.

Definition falsy_string (o : option string) : bool :=
  match o with Some s => String.eqb s EmptyString | None => true end.

Definition connect (w : World) (voiceID : option string)
    (textChannel : option TextChannel) : M string :=
  match voiceID, textChannel with
  | Some voice, Some tc =>
      match guild tc with
      | Some g =>
          if falsy_string voiceID then reject notChannel
          else
            let* channel := read (fun st => connections st !! id g) in
            if negb (falsy_string channel)
               && negb (bool_decide (channel = Some (channel_id tc)))
            then reject alreadyBinded
            else
              update (bindChannel (id g) (channel_id tc)) ;;
              if negb (hasPermissions w g) then reject noPerms
              else
                match joinVoiceChannel w voice with
                | inr connection => ret connection
                | inl err =>
                    update (with_log
                      ("Could not join voice channel " +:+ voice +:+ " in " +:+ name g
                       +:+ " (" +:+ id g +:+ ") - " +:+ err)) ;;
                    reject error
                end
      | None => reject notChannel
      end
  | _, _ => reject notChannel
  end.

(** A property read that throws ends the method with a [TypeError]. *)
Definition prop (o : option Js.Val) : Outcome Js.Val :=
  match o with Some v => Resolved v | None => Rejected TypeError end.

(** [getInfo(url)] for a value read off an item: hashing anything but a
    string throws when the key is built. *)
Definition getInfo_of (w : World) (url : Js.Val) : Outcome Info :=
  match url with
  | Js.VStr s => getInfo w s false
  | _ => Rejected TypeError
  end.

(** [this.volume.get(guildId) || 2]. *)
Definition volume_or_default (guildId : string) (st : State) : Js.Num :=
  match volume st !! guildId with
  | Some v => if Js.num_truthy v then v else Js.of_Z 2
  | None => Js.of_Z 2
  end.

(** [channel.voiceMembers.size === 1 &&
     channel.voiceMembers.has(this.client.user.id)]. *)
Definition alone_with_bot (w : World) (channel : Channel) : bool :=
  (Z.of_nat (size (voiceMembers channel)) =? 1)
  && bool_decide (client_user_id w ∈ voiceMembers channel).

(** The argument [mediaInfo] as [if (mediaInfo)] sees it. *)
Definition given (mediaInfo : option Info) : option Info :=
  match mediaInfo with
  | Some i => if InfoProp.truthy i then Some i else None
  | None => None
  end.

(** [mediaInfo ? mediaInfo.url || item.url : item.url]. *)
Definition chosen_url (mediaInfo : option Info) (item : Info) : Outcome Js.Val :=
  match given mediaInfo with
  | Some i =>
      match InfoProp.url i with
      | Some u => if Js.truthy u then Resolved u else prop (InfoProp.url item)
      | None => Rejected TypeError
      end
  | None => prop (InfoProp.url item)
  end.

(** [play].  The method calls itself after it has cleared the queue of
    a dead item; [fuel] bounds the depth of that recursion. *)
Fixpoint play (fuel : nat) (w : World) (channel : Channel)
    (mediaInfo : option Info) : M PlayReply :=
  match fuel with
  | O => settle Unfinished
  | S fuel =>
      if alone_with_bot w channel then Player.stop channel true
      else
        let guildId := guild_id channel in
        let* len := Queue.getLength guildId in
        if len =? 0 then reject noSongs
        else
          let* item := Queue.shift guildId in
          let* volume := read (volume_or_default guildId) in
          match given mediaInfo with
          | Some supplied => Player.play w channel supplied (Some volume)
          | None =>
              let* url := settle (chosen_url mediaInfo item) in
              let* resolved := settle (getInfo_of w url) in
              if negb (InfoProp.truthy resolved) then
                Queue.remove guildId ;;
                play fuel w channel None
              else
                let* playing := read (getPlayingState channel) in
                (if playing then Player.stop channel false else ret Stopped) ;;
                Player.play w channel resolved (Some volume)
          end
  end.

Definition queueSong (fuel : nat) (w : World) (guildId : string)
    (voiceChannel : Channel) (mediaInfo : Info) : M Info :=
  let* playing := read (getPlayingState voiceChannel) in
  if negb playing then
    Queue.add guildId mediaInfo true ;;
    let* audiourl := settle (prop (InfoProp.audiourl mediaInfo)) in
    if Js.truthy audiourl then
      Player.play w voiceChannel mediaInfo None ;;
      ret mediaInfo
    else
      play fuel w voiceChannel None ;;
      ret mediaInfo
  else
    Queue.add guildId mediaInfo false ;;
    ret mediaInfo.

(** [mediaInfo && mediaInfo.length && mediaInfo.length > 5400]. *)
Definition too_long (mediaInfo : Info) : bool :=
  InfoProp.truthy mediaInfo
  && match InfoProp.length mediaInfo with
     | Some len => Js.truthy len && Numeric.gt_const len 5400
     | None => false
     end.

Definition add (fuel : nat) (w : World) (guildId : string)
    (voiceChannel : Channel) (url : Js.Val) : M Info :=
  let* url := settle (if Js.typeof_object url then prop (Js.get url "url")
                      else Resolved url) in
  match url with
  | Js.VStr url =>
      let url := Str.replace_first "/<|>/g" EmptyString url in
      let* mediaInfo := settle (getInfo w url false) in
      if too_long mediaInfo then reject tooLong
      else queueSong fuel w guildId voiceChannel mediaInfo
  | _ => reject invalidURL
  end.


(** *** Skip votes *)

Record Message : Type := {
  msg_guild_id : string;             (* [msg.guild.id] *)
  author_id : string;                (* [msg.author.id] *)
  voice_channel : option Channel     (* the channel the client knows for
                                        [msg.member.voiceState.channelID] *)
}.

Inductive SkipReply : Type :=
| nothingToSkip      (* [Promise.resolve()] *)
| alreadyVoted
| voteSuccess
| playerSkip.        (* what [player.skip] resolves to *)

(** [this.votes.get(guildId) || []]: the call of [get] on [undefined]
    throws. *)
Definition current_votes (guildId : string) : M (list string) :=
  fun st =>
    match votes st with
    | None => (st, Rejected TypeError)
    | Some map =>
        (st, Resolved match map !! guildId with
                      | Some (Voters ids) => ids
                      | Some Zero | None => []
                      end)
    end.

(** [!force && channel.members > 2]; the channel is only read when the
    skip is not forced. *)
Definition needs_vote (force : bool) (channel : option Channel) : Outcome bool :=
  if force then Resolved false
  else
    match channel with
    | Some c => Resolved (2 <? members c)
    | None => Rejected TypeError
    end.

(** [(vote.length / channel.members) < 0.5], for a positive count of
    members. *)
Definition below_quorum (vote : list string) (channel : option Channel) : bool :=
  match channel with
  | Some c => 2 * Z.of_nat (List.length vote) <? members c
  | None => false
  end.

(** [skip].  [vote.push] writes into the array the map holds; the cell
    is overwritten on both branches that follow, so the model writes
    the cell once. *)
Definition skip (msg : Message) (force : bool) : M SkipReply :=
  let channel := voice_channel msg in
  let guildId := msg_guild_id msg in
  let* len := Queue.getLength guildId in
  if len <=? 1 then ret nothingToSkip
  else
    let* voting := settle (needs_vote force channel) in
    if voting then
      let* vote := current_votes guildId in
      if existsb (String.eqb (author_id msg)) vote then ret alreadyVoted
      else
        let vote := vote ++ [author_id msg] in
        if below_quorum vote channel then
          update (with_votes <[guildId := Voters vote]>) ;;
          ret voteSuccess
        else
          update (with_votes <[guildId := Zero]>) ;;
          Player.skip guildId channel ;;
          ret playerSkip
    else
      Player.skip guildId channel ;;
      ret playerSkip.

(** ** Notions the properties are stated with *)

(** Sorted by decreasing rate. *)
Definition desc : list Format.t -> Prop :=
  StronglySorted (fun a b => rate b <= rate a).

(** The selection of the best audio, in terms of what the entries
    hold: the number the itag reads as is one of three, the audio
    bitrate is a positive number, the video bitrate is absent (falsy). *)
Definition itag_among (a b c : Z) (f : Format.t) : Prop :=
  exists n, Str.parseInt (Format.itag f) = Dbl.Int n /\ (n = a \/ n = b \/ n = c).

Definition webm_family : Format.t -> Prop := itag_among 249 250 251.
Definition mp4_family : Format.t -> Prop := itag_among 141 140 139.

Definition some_in (P : Format.t -> Prop) (l : list Format.t) : Prop :=
  exists g, In g l /\ P g.

Definition audio_rate (f : Format.t) (n : Z) : Prop :=
  Format.audioBitrate f = Some n /\ 0 < n.

Definition no_video (f : Format.t) : Prop := Js.truthy (Format.bitrate f) = false.

(** The family the selection runs in, with the tag that goes with it:
    the entries with a webm itag when [all] has some; else those with
    an mp4 itag when it has some; else those in an mp4 container. *)
Definition chosen_family (all : list Format.t) (type : string) (f : Format.t)
  : Prop :=
  (some_in webm_family all /\ webm_family f /\ type = "webm")
  \/ (~ some_in webm_family all /\ some_in mp4_family all
      /\ mp4_family f /\ type = "mp4")
  \/ (~ some_in webm_family all /\ ~ some_in mp4_family all
      /\ Format.container f = "mp4" /\ type = "mp4").

(** The duration of an item, its [length] read as a number, exceeds
    [limit]. *)
Definition duration_exceeds (mediaInfo : Info) (limit : Z) : Prop :=
  exists len, InfoProp.length mediaInfo = Some len
              /\ Numeric.gt_const len limit = true.

(** What a call of [play] adds to the calls on the player: every play
    for [channel] has a stop for [channel] before it. *)
Definition stop_precedes_play (channel : Channel) (added : list Call) : Prop :=
  forall before mediaInfo vol after,
    added = before ++ CallPlay channel mediaInfo vol :: after ->
    exists immediate, In (CallStop channel immediate) before.

(** ** Sample data *)

Module Sample.

Definition stream_url (itag : string) : string :=
  "https://r4.example.net/videoplayback?id=o-AB&expire=1500000000&itag=" +:+ itag.

(** An audio-only webm stream at 70 kbit/s. *)
Definition f250 : Format.t :=
  {| Format.itag := "250"; Format.container := "webm";
     Format.audioBitrate := Some 70; Format.bitrate := Js.VNull;
     Format.url := Some (stream_url "250"); Format._format := None |}.

(** A mixed mp4 stream whose audio runs at 128 kbit/s. *)
Definition f140 : Format.t :=
  {| Format.itag := "140"; Format.container := "mp4";
     Format.audioBitrate := Some 128; Format.bitrate := Js.VStr "0.5";
     Format.url := Some (stream_url "140"); Format._format := None |}.

Definition video (seconds : string) : Raw.t :=
  {| Raw.video_id := Some "o5Gk7xkBh0g"; Raw.title := "Title";
     Raw.thumbnail_url := "https://i.example.net/o5Gk7xkBh0g/default.jpg";
     Raw.length_seconds := seconds; Raw.formats := [f140; f250];
     Raw.url := None; Raw.expires := None |}.

Definition reference : string := "https://youtu.be/o5Gk7xkBh0g".
Definition watch_url : string := "https://www.youtube.com/watch?v=o5Gk7xkBh0g".

(** A world whose cache answers [cache] to every read and whose
    resolver knows one video, [seconds] long, under its two URLs. *)
Definition world (cache : CacheReply) (seconds : string) : World :=
  {| sha256_hex := fun s => s;
     redis_getAsync := fun _ => cache;
     ytdl_getInfoAsync := fun u =>
       if String.eqb u reference || String.eqb u watch_url
     then YtdlReturns (Some (video seconds))
       else YtdlThrows "Error: No video id found";
     Date_now := 1499990000000;
     client_user_id := "bot";
     hasPermissions := fun _ => false;
     joinVoiceChannel := fun _ => inl "Error: timeout";
     player_play_fails := fun _ _ => None |}.

Definition voice : Channel :=
  {| guild_id := "g1"; voiceMembers := {[ "u1"; "u2"; "bot" ]}; members := 5 |}.

Definition media (seconds : Z) : Media.t :=
  {| Media.video_id := "o5Gk7xkBh0g"; Media.title := "Title";
     Media.thumbnail_url := "https://i.example.net/o5Gk7xkBh0g/default.jpg";
     Media.url := "https://www.youtube.com/watch?v=o5Gk7xkBh0g";
     Media.audiourl := Some (stream_url "250");
     Media.audioformat := Some "webm"; Media.audiotype := "250";
     Media.expires := Some (Dbl.Int 1498490000600);
     Media.length := Dbl.Int seconds |}.

(** The module as its constructor leaves it, the collaborators idle. *)
Definition empty : State :=
  {| connections := ∅; volume := ∅; votes := None; queue := ∅;
     voiceConnections := ∅; calls := []; log := [] |}.

(** Guild [g1]: idle, or playing with one item waiting. *)
Definition idle : State := with_voiceConnections <["g1" := false]> empty.

Definition playing : State :=
  with_queue <["g1" := [Formatted (media 200)]]>
    (with_voiceConnections <["g1" := true]> empty).

Definition text : TextChannel :=
  {| channel_id := "c7"; guild := Some {| id := "g1"; name := "Guild" |} |}.

Definition vote_msg (author : string) : Message :=
  {| msg_guild_id := "g1"; author_id := author; voice_channel := Some voice |}.

(** Two items queued for [g1], nobody has voted. *)
Definition two_queued : State :=
  with_queue <["g1" := [Formatted (media 200); Formatted (media 300)]]> idle.

End Sample.

(** More sample data: a world where the bot may join, and items as a
    cache or a caller can hand them over. *)
Module Cases.

(** Like [Sample.world], with the permissions granted and a voice
    server that answers. *)
Definition open_world (cache : CacheReply) (seconds : string) : World :=
  {| sha256_hex := sha256_hex (Sample.world cache seconds);
     redis_getAsync := redis_getAsync (Sample.world cache seconds);
     ytdl_getInfoAsync := ytdl_getInfoAsync (Sample.world cache seconds);
     Date_now := Date_now (Sample.world cache seconds);
     client_user_id := "bot";
     hasPermissions := fun _ => true;
     joinVoiceChannel := fun _ => inr "connection";
     player_play_fails := fun _ _ => None |}.

Definition other_text : TextChannel :=
  {| channel_id := "c8"; guild := Some {| id := "g1"; name := "Guild" |} |}.

(** A channel where only the bot is left. *)
Definition deserted : Channel :=
  {| guild_id := "g1"; voiceMembers := {[ "bot" ]}; members := 1 |}.

(** A small channel: two members. *)
Definition duo : Channel :=
  {| guild_id := "g1"; voiceMembers := {[ "u1"; "bot" ]}; members := 2 |}.

(** The whole info of ytdl for the sample video, as [getInfo] returns
    it with [fetchAll]: it has a [url] and no [audiourl]. *)
Definition full : Info :=
  Full {| Raw.video_id := Some "o5Gk7xkBh0g"; Raw.title := "Title";
          Raw.thumbnail_url := "https://i.example.net/o5Gk7xkBh0g/default.jpg";
          Raw.length_seconds := "212"; Raw.formats := [Sample.f140; Sample.f250];
          Raw.url := Some Sample.watch_url; Raw.expires := Some (Dbl.Int 1499999100) |}.

(** A video whose only stream has no audio. *)
Definition silent : Raw.t :=
  {| Raw.video_id := Some "o5Gk7xkBh0g"; Raw.title := "Title";
     Raw.thumbnail_url := "https://i.example.net/o5Gk7xkBh0g/default.jpg";
     Raw.length_seconds := "212";
     Raw.formats :=
       [{| Format.itag := "251"; Format.container := "webm";
           Format.audioBitrate := None; Format.bitrate := Js.VStr "1.5";
           Format.url := Some (Sample.stream_url "251"); Format._format := None |};
        Sample.f140];
     Raw.url := None; Raw.expires := None |}.

Definition silent_world : World :=
  {| sha256_hex := fun s => s;
     redis_getAsync := fun _ => GetNil;
     ytdl_getInfoAsync := fun _ => YtdlReturns (Some silent);
     Date_now := 1499990000000;
     client_user_id := "bot";
     hasPermissions := fun _ => true;
     joinVoiceChannel := fun _ => inr "connection";
     player_play_fails := fun _ _ => None |}.

(** A video none of whose streams has audio: a video-only webm entry
    and an mp4 entry whose audio bitrate is 0. *)
Definition mute : Raw.t :=
  {| Raw.video_id := Some "o5Gk7xkBh0g"; Raw.title := "Title";
     Raw.thumbnail_url := "https://i.example.net/o5Gk7xkBh0g/default.jpg";
     Raw.length_seconds := "212";
     Raw.formats :=
       [{| Format.itag := "248"; Format.container := "webm";
           Format.audioBitrate := None; Format.bitrate := Js.VStr "1.5";
           Format.url := Some (Sample.stream_url "248"); Format._format := None |};
        {| Format.itag := "140"; Format.container := "mp4";
           Format.audioBitrate := Some 0; Format.bitrate := Js.VNull;
           Format.url := Some (Sample.stream_url "140"); Format._format := None |}];
     Raw.url := None; Raw.expires := None |}.

Definition mute_world : World :=
  {| sha256_hex := fun s => s;
     redis_getAsync := fun _ => GetNil;
     ytdl_getInfoAsync := fun _ => YtdlReturns (Some mute);
     Date_now := 1499990000000;
     client_user_id := "bot";
     hasPermissions := fun _ => true;
     joinVoiceChannel := fun _ => inr "connection";
     player_play_fails := fun _ _ => None |}.

End Cases.

(** The same collaborators when the clock reads [now]. *)
Definition at_time (now : Z) (w : World) : World :=
  {| sha256_hex := sha256_hex w;
     redis_getAsync := redis_getAsync w;
     ytdl_getInfoAsync := ytdl_getInfoAsync w;
     Date_now := now;
     client_user_id := client_user_id w;
     hasPermissions := hasPermissions w;
     joinVoiceChannel := joinVoiceChannel w;
     player_play_fails := player_play_fails w |}.

(** Shapes of text the properties of the expiry speak of. *)
Fixpoint all_digits (s : string) : bool :=
  match s with
  | String c rest => Str.is_digit c && all_digits rest
  | EmptyString => true
  end.

(** The integer that a run of decimal digits denotes after [acc]. *)
Fixpoint decimal (acc : Z) (d : string) : Z :=
  match d with
  | String c rest => decimal (acc * 10 + (Str.code c - 48)) rest
  | EmptyString => acc
  end.

Fixpoint lacks (a : ascii) (s : string) : bool :=
  match s with
  | String c rest => negb (Ascii.eqb a c) && lacks a rest
  | EmptyString => true
  end.

Definition starts_with_digit (s : string) : bool :=
  match s with
  | String c _ => Str.is_digit c
  | EmptyString => false
  end.

(** [st'] differs from [st] at most in the queue and the voice
    connection of the guilds [g1] and [g2] and in the calls made on the
    player. *)
Definition touches_only (g1 g2 : string) (st st' : State) : Prop :=
  connections st' = connections st
  /\ volume st' = volume st
  /\ votes st' = votes st
  /\ log st' = log st
  /\ (forall g, g <> g1 -> g <> g2 ->
        queue st' !! g = queue st !! g
        /\ voiceConnections st' !! g = voiceConnections st !! g).

(** * Properties *)

(** ** Best-audio selection *)

Lemma insert_desc_In f l x : In x (insert_desc f l) <-> x = f \/ In x l.
Proof.
  induction l as [|g l IH]; simpl.
  - intuition.
  - destruct (rate f <? rate g); simpl; rewrite ?IH; intuition.
Qed.

Lemma sort_desc_In l x : In x (sort_desc l) <-> In x l.
Proof.
  induction l as [|f l IH]; simpl; [tauto|].
  rewrite insert_desc_In, IH. intuition.
Qed.

Lemma insert_desc_sorted f l : desc l -> desc (insert_desc f l).
Proof.
  unfold desc. induction 1 as [|g l Hs IH Hall]; simpl.
  - repeat constructor.
  - destruct (Z.ltb_spec (rate f) (rate g)) as [Hlt|Hge].
    + constructor; [exact IH|].
      apply List.Forall_forall. intros x Hx. apply insert_desc_In in Hx.
      destruct Hx as [->|Hx]; [lia|].
      rewrite List.Forall_forall in Hall. auto.
    + constructor; [constructor; assumption|].
      constructor; [lia|].
      rewrite List.Forall_forall in Hall |- *. intros x Hx.
      specialize (Hall x Hx). lia.
Qed.

Lemma sort_desc_sorted l : desc (sort_desc l).
Proof.
  induction l as [|f l IH]; simpl.
  - constructor.
  - apply insert_desc_sorted, IH.
Qed.

(** In a list sorted by decreasing rate, the first entry that passes
    a test has the highest rate among those that pass. *)
Lemma find_desc_highest (p : Format.t -> bool) l f :
  desc l -> List.find p l = Some f ->
  forall g, In g l -> p g = true -> rate g <= rate f.
Proof.
  unfold desc. induction 1 as [|a l Hs IH Hall]; simpl; [discriminate|].
  intros Hfind g Hg Hp. destruct (p a) eqn:Ha.
  - injection Hfind as <-. destruct Hg as [->|Hg]; [lia|].
    rewrite List.Forall_forall in Hall. auto.
  - destruct Hg as [->|Hg]; [congruence|]. eauto.
Qed.

Lemma find_exists (p : Format.t -> bool) l g :
  In g l -> p g = true -> exists f, List.find p l = Some f.
Proof.
  intros Hg Hp. destruct (List.find p l) as [f|] eqn:Hf; [eauto|].
  pose proof (find_none p l Hf g Hg). congruence.
Qed.

Lemma bestaudio_audio_only family :
  (exists g, In g family /\ audio_only g = true) ->
  exists f, bestaudio family = Some f /\ In f family /\ audio_only f = true /\
            forall g, In g family -> audio_only g = true -> rate g <= rate f.
Proof.
  intros (g & Hg & Hp). unfold bestaudio.
  destruct (find_exists audio_only (sort_desc family) g) as [f Hf];
    [now apply sort_desc_In | assumption |].
  rewrite Hf. exists f. destruct (find_some _ _ Hf) as [Hin Hok].
  repeat split; [now apply sort_desc_In | assumption |].
  intros h Hh Hph.
  apply (find_desc_highest audio_only (sort_desc family) f); auto using sort_desc_sorted.
  now apply sort_desc_In.
Qed.

Lemma bestaudio_fallback family :
  (forall g, In g family -> audio_only g = false) ->
  (exists g, In g family /\ audible g = true) ->
  exists f, bestaudio family = Some f /\ In f family /\ audible f = true /\
            forall g, In g family -> audible g = true -> rate g <= rate f.
Proof.
  intros Hnone (g & Hg & Hp). unfold bestaudio.
  destruct (List.find audio_only (sort_desc family)) as [x|] eqn:Hx.
  { destruct (find_some _ _ Hx) as [Hin Hok]. rewrite sort_desc_In in Hin.
    rewrite (Hnone x Hin) in Hok. discriminate. }
  destruct (find_exists audible (sort_desc family) g) as [f Hf];
    [now apply sort_desc_In | assumption |].
  rewrite Hf. exists f. destruct (find_some _ _ Hf) as [Hin Hok].
  repeat split; [now apply sort_desc_In | assumption |].
  intros h Hh Hph.
  apply (find_desc_highest audible (sort_desc family) f); auto using sort_desc_sorted.
  now apply sort_desc_In.
Qed.

Lemma is_nil_false {A} (l : list A) : l <> [] -> is_nil l = false.
Proof. destruct l; [congruence | reflexivity]. Qed.

Lemma audio_only_dec family :
  (exists g, In g family /\ audio_only g = true)
  \/ (forall g, In g family -> audio_only g = false).
Proof.
  destruct (existsb audio_only family) eqn:E.
  - left. apply existsb_exists in E. exact E.
  - right. intros g Hg. destruct (audio_only g) eqn:Hg'; [|reflexivity].
    assert (existsb audio_only family = true)
      by (apply existsb_exists; eauto). congruence.
Qed.


Lemma bestaudio_member family f :
  bestaudio family = Some f -> In f family /\ audible f = true.
Proof.
  unfold bestaudio.
  destruct (List.find audio_only (sort_desc family)) as [x|] eqn:Hx.
  - intros [= <-]. destruct (find_some _ _ Hx) as [Hin Hok].
    rewrite sort_desc_In in Hin. split; [assumption|].
    unfold audio_only in Hok. now apply andb_true_iff in Hok as [Hok _].
  - intros Hf. destruct (find_some _ _ Hf) as [Hin Hok].
    rewrite sort_desc_In in Hin. auto.
Qed.

Lemma bestaudio_none family :
  (forall f, In f family -> audible f = false) -> bestaudio family = None.
Proof.
  intros H. destruct (bestaudio family) as [f|] eqn:Hb; [|reflexivity].
  destruct (bestaudio_member _ _ Hb) as [Hin Hok]. rewrite (H f Hin) in Hok.
  discriminate.
Qed.

Lemma getFormatUrl_member type family f :
  getFormatUrl type family = Returns (Some f) ->
  exists f0, In f0 family /\ audible f0 = true /\ has_url f0 = true /\ f = tag type f0.
Proof.
  unfold getFormatUrl. destruct (bestaudio family) as [b|] eqn:Hb; [|discriminate].
  destruct (has_url b) eqn:Hu; [|discriminate]. intros [= <-].
  destruct (bestaudio_member _ _ Hb). eauto.
Qed.

Lemma itag_in_among a b c f :
  itag_in [a; b; c] f = true <-> itag_among a b c f.
Proof.
  unfold itag_in, itag_among.
  destruct (Str.parseInt (Format.itag f)) as [| |n].
  - split; [discriminate | intros (n & H & _); discriminate].
  - split; [discriminate | intros (n & H & _); discriminate].
  - simpl. rewrite !orb_true_iff, !Z.eqb_eq. split.
    + intros H. exists n. intuition congruence.
    + intros (n' & [= <-] & H). intuition congruence.
Qed.

Lemma some_in_filter (p : Format.t -> bool) (P : Format.t -> Prop) all :
  (forall f, p f = true <-> P f) ->
  is_nil (List.filter p all) = false <-> some_in P all.
Proof.
  intros Hp. unfold some_in. split.
  - destruct (List.filter p all) as [|g l] eqn:E; [discriminate|]. intros _.
    assert (Hg : In g (List.filter p all)) by (rewrite E; now left).
    apply filter_In in Hg as [Hin Hpg]. exists g. split; [assumption | now apply Hp].
  - intros (g & Hin & HP). apply is_nil_false. intros E.
    assert (Hg : In g (List.filter p all)) by (apply filter_In; split; [|apply Hp]; auto).
    now rewrite E in Hg.
Qed.

Lemma audible_rate f : audible f = true <-> exists n, audio_rate f n /\ rate f = n.
Proof.
  unfold audible, audio_rate, rate. destruct (Format.audioBitrate f) as [n|].
  - rewrite Z.ltb_lt. split; [eauto | intros (m & ([= <-] & H) & _); exact H].
  - split; [discriminate | intros (m & (H & _) & _); discriminate].
Qed.

Lemma audio_rate_audible f n : audio_rate f n -> audible f = true /\ rate f = n.
Proof.
  intros [H Hn]. unfold audible, rate. rewrite H. split; [now apply Z.ltb_lt | reflexivity].
Qed.

(** What [getFormatUrl] binds inside one family, in terms of what the
    entries hold. *)
Lemma family_selection type (p : Format.t -> bool) all :
  (exists g m, In g all /\ p g = true /\ audio_rate g m) ->
  exists f0 n,
    In f0 all /\ p f0 = true /\ audio_rate f0 n
    /\ (forall g m, In g all -> p g = true -> audio_rate g m -> no_video g ->
          no_video f0 /\ m <= n)
    /\ (~ no_video f0 ->
        forall g m, In g all -> p g = true -> audio_rate g m -> m <= n)
    /\ getFormatUrl type (List.filter p all)
       = if has_url f0 then Returns (Some (tag type f0)) else Returns None.
Proof.
  intros (g & m & Hin & Hp & Hm).
  destruct (audio_rate_audible g m Hm) as [Hg _].
  assert (HgL : In g (List.filter p all)) by (apply filter_In; auto).
  assert (Hmem : forall x k, In x all -> p x = true -> audio_rate x k ->
            In x (List.filter p all) /\ audible x = true /\ rate x = k).
  { intros x k Hx Hpx Hk. destruct (audio_rate_audible x k Hk).
    repeat split; auto. apply filter_In; auto. }
  destruct (audio_only_dec (List.filter p all)) as [Hex | Hnone].
  - destruct (bestaudio_audio_only _ Hex) as (f & Hb & Hf & Hao & Hmax).
    apply filter_In in Hf as [Hfin Hfp].
    apply andb_true_iff in Hao as [Ha Hv]. apply negb_true_iff in Hv.
    apply audible_rate in Ha as (n & Hn & Hr).
    exists f, n. split; [assumption|]. split; [assumption|]. split; [assumption|].
    split; [|split].
    + intros x k Hx Hpx Hk Hnv. split; [exact Hv|].
      destruct (Hmem x k Hx Hpx Hk) as (HL & Hau & Hrate).
      rewrite <- Hrate, <- Hr. apply Hmax; [assumption|].
      unfold audio_only. rewrite Hau. unfold no_video in Hnv. now rewrite Hnv.
    + intros Hnv. contradiction.
    + unfold getFormatUrl. now rewrite Hb.
  - destruct (bestaudio_fallback _ Hnone) as (f & Hb & Hf & Ha & Hmax); [eauto|].
    apply filter_In in Hf as [Hfin Hfp].
    apply audible_rate in Ha as (n & Hn & Hr).
    exists f, n. split; [assumption|]. split; [assumption|]. split; [assumption|].
    split; [|split].
    + intros x k Hx Hpx Hk Hnv.
      destruct (Hmem x k Hx Hpx Hk) as (HL & Hau & Hrate).
      specialize (Hnone x HL). unfold audio_only in Hnone.
      unfold no_video in Hnv. rewrite Hau, Hnv in Hnone. discriminate.
    + intros _ x k Hx Hpx Hk. destruct (Hmem x k Hx Hpx Hk) as (HL & Hau & Hrate).
      rewrite <- Hrate, <- Hr. now apply Hmax.
    + unfold getFormatUrl. now rewrite Hb.
Qed.

(** The family of the claim is the list [getBestAudio] filters. *)
Lemma chosen_family_filter all type f :
  chosen_family all type f <->
  if negb (is_nil (List.filter (itag_in webm_itags) all))
  then itag_in webm_itags f = true /\ type = "webm"
  else if negb (is_nil (List.filter (itag_in mp4_itags) all))
       then itag_in mp4_itags f = true /\ type = "mp4"
       else String.eqb (Format.container f) "mp4" = true /\ type = "mp4".
Proof.
  unfold chosen_family, webm_family, mp4_family, webm_itags, mp4_itags.
  pose proof (some_in_filter (itag_in [249; 250; 251]) (itag_among 249 250 251) all
                (itag_in_among 249 250 251)) as Hw.
  pose proof (some_in_filter (itag_in [141; 140; 139]) (itag_among 141 140 139) all
                (itag_in_among 141 140 139)) as Hm.
  pose proof (itag_in_among 249 250 251 f) as Hfw.
  pose proof (itag_in_among 141 140 139 f) as Hfm.
  pose proof (String.eqb_eq (Format.container f) "mp4") as Hc.
  destruct (is_nil (List.filter (itag_in [249; 250; 251]) all));
    destruct (is_nil (List.filter (itag_in [141; 140; 139]) all));
    cbn [negb]; intuition congruence.
Qed.

Lemma getBestAudio_families info :
  getBestAudio info =
    let all := Raw.formats info in
    if negb (is_nil (List.filter (itag_in webm_itags) all))
    then getFormatUrl "webm" (List.filter (itag_in webm_itags) all)
    else if negb (is_nil (List.filter (itag_in mp4_itags) all))
         then getFormatUrl "mp4" (List.filter (itag_in mp4_itags) all)
         else if negb (is_nil (List.filter
                         (fun f => String.eqb (Format.container f) "mp4") all))
              then getFormatUrl "mp4"
                     (List.filter (fun f => String.eqb (Format.container f) "mp4") all)
              else Returns None.
Proof.
  unfold getBestAudio. cbv zeta.
  destruct (is_nil (List.filter (itag_in webm_itags) (Raw.formats info)));
    [|reflexivity].
  destruct (is_nil (List.filter (itag_in mp4_itags) (Raw.formats info))) eqn:Hm;
    cbn [negb]; [reflexivity | now rewrite Hm].
Qed.

(** C3.  Best-audio selection has a fixed family priority, read off the
    entries themselves.  The selection runs among the entries whose
    itag reads as 249, 250 or 251 when the list has some, else among
    those whose itag reads as 141, 140 or 139 when it has some, else
    among those in an mp4 container.  When that family has an entry
    with a positive audio bitrate, the entry bound is one of the
    family with a positive audio bitrate; when some of those have no
    video bitrate it is one of them and none of them has a higher
    audio bitrate; when none has, no entry of the family has a higher
    audio bitrate.  It is returned with the tag of the family when it
    has a URL, and nothing is returned when it has none; and nothing
    is ever returned that does not come about in this way.  In
    particular an audio-only itag 250 at 70 wins over an itag 140 at
    128, mixed or audio only, in either order. *)
Theorem getBestAudio_selection (info : Raw.t) :
  let all := Raw.formats info in
  ((exists g m type, In g all /\ chosen_family all type g /\ audio_rate g m) ->
   exists f0 n type,
     In f0 all /\ chosen_family all type f0 /\ audio_rate f0 n
     /\ (forall g m, In g all -> chosen_family all type g -> audio_rate g m ->
           no_video g -> no_video f0 /\ m <= n)
     /\ (~ no_video f0 ->
         forall g m, In g all -> chosen_family all type g -> audio_rate g m ->
           m <= n)
     /\ getBestAudio info =
          match Format.url f0 with
          | Some u =>
              if String.eqb u EmptyString then Returns None
              else Returns (Some {| Format.itag := Format.itag f0;
                                    Format.container := Format.container f0;
                                    Format.audioBitrate := Format.audioBitrate f0;
                                    Format.bitrate := Format.bitrate f0;
                                    Format.url := Format.url f0;
                                    Format._format := Some type |})
          | None => Returns None
          end) /\
  (forall best, getBestAudio info = Returns (Some best) ->
     exists g m type, In g all /\ chosen_family all type g /\ audio_rate g m) /\
  (forall a b u,
     Str.parseInt (Format.itag a) = Dbl.Int 250 -> Format.audioBitrate a = Some 70 ->
     no_video a -> Format.url a = Some u -> u <> EmptyString ->
     Str.parseInt (Format.itag b) = Dbl.Int 140 -> Format.audioBitrate b = Some 128 ->
     all = [a; b] \/ all = [b; a] ->
     exists best, getBestAudio info = Returns (Some best)
                  /\ Format.itag best = Format.itag a
                  /\ Format.audioBitrate best = Some 70
                  /\ Format.url best = Some u
                  /\ Format._format best = Some "webm").
Proof.
  cbv zeta. split; [|split].
  - intros (g & m & type & Hin & Hfam & Hm).
    rewrite getBestAudio_families. cbv zeta.
    assert (Hsel : forall type' (p : Format.t -> bool),
              (forall f, chosen_family (Raw.formats info) type f
                         <-> p f = true /\ type = type') ->
              exists f0 n type0,
                In f0 (Raw.formats info)
                /\ chosen_family (Raw.formats info) type0 f0 /\ audio_rate f0 n
                /\ (forall g m, In g (Raw.formats info) ->
                      chosen_family (Raw.formats info) type0 g -> audio_rate g m ->
                      no_video g -> no_video f0 /\ m <= n)
                /\ (~ no_video f0 ->
                    forall g m, In g (Raw.formats info) ->
                      chosen_family (Raw.formats info) type0 g -> audio_rate g m ->
                      m <= n)
                /\ getFormatUrl type' (List.filter p (Raw.formats info))
                   = if has_url f0 then Returns (Some (tag type0 f0))
                     else Returns None).
    { intros type' p Hp. destruct (proj1 (Hp g) Hfam) as [Hpg ->].
      destruct (family_selection type' p (Raw.formats info)) as
        (f0 & n & H0 & H1 & H2 & H3 & H4 & H5); [eauto|].
      exists f0, n, type'. split; [assumption|].
      split; [apply Hp; auto|]. split; [assumption|].
      split; [|split; [|assumption]].
      - intros x k Hx Hfx. apply H3; [assumption|]. now apply Hp in Hfx.
      - intros Hnv x k Hx Hfx. apply H4; try assumption. now apply Hp in Hfx. }
    assert (Hshape : forall f0 type0 (c : Completion (option Format.t)),
              c = (if has_url f0 then Returns (Some (tag type0 f0)) else Returns None) ->
              c = match Format.url f0 with
                  | Some u =>
                      if String.eqb u EmptyString then Returns None
                      else Returns (Some (tag type0 f0))
                  | None => Returns None
                  end).
    { intros f0 type0 c ->. unfold has_url.
      destruct (Format.url f0) as [u|]; [|reflexivity].
      now destruct (String.eqb u EmptyString). }
    pose proof (fun f => chosen_family_filter (Raw.formats info) type f) as Hcf.
    destruct (negb (is_nil (List.filter (itag_in webm_itags) (Raw.formats info)))).
    { destruct (Hsel "webm" (itag_in webm_itags) Hcf)
        as (f0 & n & type0 & H0 & H1 & H2 & H3 & H4 & H5).
      exists f0, n, type0. repeat (split; [assumption|]). now apply Hshape. }
    destruct (negb (is_nil (List.filter (itag_in mp4_itags) (Raw.formats info)))).
    { destruct (Hsel "mp4" (itag_in mp4_itags) Hcf)
        as (f0 & n & type0 & H0 & H1 & H2 & H3 & H4 & H5).
      exists f0, n, type0. repeat (split; [assumption|]). now apply Hshape. }
    destruct (Hsel "mp4" (fun f => String.eqb (Format.container f) "mp4") Hcf)
      as (f0 & n & type0 & H0 & H1 & H2 & H3 & H4 & H5).
    assert (Hne : is_nil (List.filter (fun f => String.eqb (Format.container f) "mp4")
                            (Raw.formats info)) = false).
    { apply is_nil_false. intros E.
      assert (Hg : In g (List.filter (fun f => String.eqb (Format.container f) "mp4")
                           (Raw.formats info)))
        by (apply filter_In; split; [assumption | apply (proj1 (Hcf g) Hfam)]).
      now rewrite E in Hg. }
    rewrite Hne. cbn [negb].
    exists f0, n, type0. repeat (split; [assumption|]). now apply Hshape.
  - intros best. rewrite getBestAudio_families. cbv zeta.
    assert (Hmem : forall type (p : Format.t -> bool),
              (forall f, chosen_family (Raw.formats info) type f
                         <-> p f = true /\ type = type) ->
              getFormatUrl type (List.filter p (Raw.formats info))
              = Returns (Some best) ->
              exists g m type, In g (Raw.formats info)
                /\ chosen_family (Raw.formats info) type g /\ audio_rate g m).
    { intros type p Hp Hret.
      destruct (getFormatUrl_member _ _ _ Hret) as (f0 & Hin & Ha & _ & _).
      apply filter_In in Hin as [Hin Hpf].
      apply audible_rate in Ha as (n & Hn & _).
      exists f0, n, type. split; [assumption|]. split; [apply Hp; auto | assumption]. }
    pose proof (fun type f => chosen_family_filter (Raw.formats info) type f) as Hcf.
    destruct (negb (is_nil (List.filter (itag_in webm_itags) (Raw.formats info)))).
    { apply Hmem. intros f. rewrite Hcf. tauto. }
    destruct (negb (is_nil (List.filter (itag_in mp4_itags) (Raw.formats info)))).
    { apply Hmem. intros f. rewrite Hcf. tauto. }
    destruct (negb (is_nil (List.filter (fun f => String.eqb (Format.container f) "mp4")
                              (Raw.formats info)))); [|discriminate].
    apply Hmem. intros f. rewrite Hcf. tauto.
  - intros a b u Ha Hra Hva Hua Hne Hb Hrb Hfs.
    assert (Hwa : itag_in webm_itags a = true) by (unfold itag_in; now rewrite Ha).
    assert (Hwb : itag_in webm_itags b = false) by (unfold itag_in; now rewrite Hb).
    assert (Hfam : List.filter (itag_in webm_itags) (Raw.formats info) = [a]).
    { destruct Hfs as [-> | ->]; simpl; now rewrite Hwa, Hwb. }
    unfold getBestAudio. rewrite Hfam. simpl.
    unfold getFormatUrl, bestaudio. simpl.
    assert (Hao : audio_only a = true).
    { unfold audio_only, audible. unfold no_video in Hva. now rewrite Hra, Hva. }
    assert (Hurl : has_url a = true).
    { unfold has_url. rewrite Hua. destruct u; [congruence | reflexivity]. }
    rewrite Hao, Hurl. eexists. split; [reflexivity|]. simpl. auto.
Qed.

Lemma getBestAudio_selection_witness :
  exists best,
    getBestAudio (Sample.video "212") = Returns (Some best)
    /\ Format.itag best = "250"
    /\ Format.audioBitrate best = Some 70
    /\ Format.url best = Some (Sample.stream_url "250")
    /\ Format._format best = Some "webm".
Proof.
  refine (proj2 (proj2 (getBestAudio_selection (Sample.video "212")))
            Sample.f250 Sample.f140 (Sample.stream_url "250") _ _ _ _ _ _ _ _);
    first [reflexivity | discriminate | (right; reflexivity)].
Defined.

(** ** Resolution *)

Lemma getFormatUrl_has_url type family f :
  getFormatUrl type family = Returns (Some f) -> has_url f = true.
Proof.
  unfold getFormatUrl. destruct (bestaudio family) as [b|]; [|discriminate].
  destruct (has_url b) eqn:Hb; [|discriminate].
  intros [= <-]. exact Hb.
Qed.

Lemma getBestAudio_has_url info f :
  getBestAudio info = Returns (Some f) -> has_url f = true.
Proof.
  unfold getBestAudio.
  repeat match goal with
         | |- context [if ?c then _ else _] => destruct c
         end; eauto using getFormatUrl_has_url; discriminate.
Qed.

Lemma round_exact z : Z.abs z < 2 ^ 53 -> Dbl.round z = Dbl.Int z.
Proof.
  intros H. unfold Dbl.round. cbv zeta.
  destruct (Z.ltb_spec (Z.abs z) (2 ^ 53)) as [_|Hge]; [reflexivity | lia].
Qed.

Lemma raw_expires_signaled info best u E :
  Format.url best = Some u -> has_url best = true ->
  signaled_expiry u = Some E -> raw_expires info best = Some (Dbl.sub E 900).
Proof.
  unfold has_url, signaled_expiry, raw_expires. intros -> Hu.
  destruct (String.eqb u EmptyString); [discriminate|].
  destruct (Str.exec_expire u); [|discriminate]. now intros [= <-].
Qed.

Lemma raw_expires_silent info best u :
  Format.url best = Some u ->
  signaled_expiry u = None -> Raw.expires info = None ->
  raw_expires info best = None.
Proof.
  unfold signaled_expiry, raw_expires. intros -> Hs Hnone.
  destruct (String.eqb u EmptyString); [assumption|].
  destruct (Str.exec_expire u); [discriminate | assumption].
Qed.

(** A read of the cache that fails is a miss: the catch turns the
    failure into [false] and the method goes on to ytdl. *)
Lemma getInfo_read_failure_is_miss w url fetchAll :
  redis_getAsync w (cache_key w url) = GetFailed ->
  getInfo w url fetchAll = resolve_live w fetchAll (ytdl_getInfoAsync w url).
Proof. intros H. unfold getInfo, cached_text. now rewrite H. Qed.

(** An entry that [JSON.parse] refuses ends [getInfo] with the
    [SyntaxError]. *)
Lemma getInfo_unparsable_entry w url fetchAll text :
  cached_text w url = Some text -> JSON.parse text = None ->
  getInfo w url fetchAll = Rejected SyntaxError.
Proof. intros Hc Hp. unfold getInfo. now rewrite Hc, Hp. Qed.

(** C1, as the code has it.  When the chosen stream URL signals an
    expiry [E] (the number [parseInt] reads, with [E - 900] in the
    range a double holds exactly), the info that [getInfo] returns
    with [fetchAll] carries [expires = E - 900], an absolute time.
    The formatted metadata it returns by default does not carry that
    time: its [expires] is [null] when [E] is 900 and otherwise a
    number taken relative to the clock of the call, so that the same
    lookup at two different times gives two different values.  When
    the URL signals nothing and ytdl's info has no [expires] of its
    own, the formatted [expires] is [null]. *)
Theorem getInfo_expires (w : World) (url : string) (info : Raw.t)
    (best : Format.t) (u : string) :
  cached_text w url = None ->
  ytdl_getInfoAsync w url = YtdlReturns (Some info) ->
  falsy_string (Raw.video_id info) = false ->
  getBestAudio info = Returns (Some best) ->
  Format.url best = Some u ->
  (forall E, signaled_expiry u = Some (Dbl.Int E) -> Z.abs (E - 900) < 2 ^ 53 ->
     (exists r, getInfo w url true = Resolved (Full r)
                /\ Raw.expires r = Some (Dbl.Int (E - 900))) /\
     (exists m, getInfo w url false = Resolved (Formatted m)
                /\ Media.audiourl m = Some u
                /\ (E = 900 -> Media.expires m = None)
                /\ (E <> 900 -> Media.expires m <> None)) /\
     (forall t t', 900 < E < 2 ^ 52 -> 0 <= t < 2 ^ 52 -> 0 <= t' < 2 ^ 52 ->
        t <> t' ->
        exists m m',
          getInfo (at_time t w) url false = Resolved (Formatted m)
          /\ getInfo (at_time t' w) url false = Resolved (Formatted m')
          /\ Media.expires m <> None
          /\ Media.expires m <> Media.expires m')) /\
  (signaled_expiry u = None -> Raw.expires info = None ->
     exists m, getInfo w url false = Resolved (Formatted m)
               /\ Media.audiourl m = Some u /\ Media.expires m = None).
Proof.
  intros Hmiss Hy Hvid Hbest Hu.
  pose proof (getBestAudio_has_url _ _ Hbest) as Hhas.
  assert (Hlive : forall now fetchAll,
             getInfo (at_time now w) url fetchAll
             = resolve_live (at_time now w) fetchAll (YtdlReturns (Some info))).
  { intros now fa. unfold getInfo, cached_text, cache_key in *. cbn [at_time
      sha256_hex redis_getAsync ytdl_getInfoAsync] in *.
    destruct (redis_getAsync w _) as [| |text]; try (now rewrite Hy).
    destruct (String.eqb text EmptyString); [now rewrite Hy | discriminate]. }
  assert (Hsame : forall fetchAll,
             getInfo w url fetchAll = getInfo (at_time (Date_now w) w) url fetchAll).
  { intros fa. unfold getInfo, cached_text, cache_key. reflexivity. }
  destruct (Raw.video_id info) as [vid|] eqn:Hv; [|discriminate]. simpl in Hvid.
  split.
  - intros E HE Hbound.
    pose proof (raw_expires_signaled info best u _ Hu Hhas HE) as Hr.
    cbn [Dbl.sub] in Hr. rewrite (round_exact _ Hbound) in Hr.
    split; [|split].
    + eexists. rewrite Hsame, Hlive. simpl. rewrite Hv, Hvid, Hbest, Hr. simpl.
      split; reflexivity.
    + eexists. rewrite Hsame, Hlive. simpl. rewrite Hv, Hvid, Hbest, Hr. simpl.
      split; [reflexivity|]. split; [assumption|].
      unfold formatted_expires, Dbl.truthy.
      destruct (Z.eqb_spec (E - 900) 0) as [Hz|Hz]; cbn [negb].
      * split; [reflexivity | intros; lia].
      * split; [intros; lia | discriminate].
    + intros t t' HE' Ht Ht' Hne.
      change (2 ^ 52) with 4503599627370496 in *.
      assert (Hz : E - 900 <> 0) by lia.
      do 2 eexists. rewrite !Hlive. simpl. rewrite Hv, Hvid, Hbest, Hr. simpl.
      split; [reflexivity|]. split; [reflexivity|]. cbn [Media.expires].
      destruct (Z.eqb_spec (E - 900) 0) as [|_]; [lia|]. cbn [negb].
      rewrite !round_exact by (change (2 ^ 53) with 9007199254740992; lia).
      cbn [Dbl.sub].
      rewrite !round_exact by (change (2 ^ 53) with 9007199254740992; lia).
      split; [discriminate|]. intros [= Heq]. lia.
  - intros Hs Hnone. pose proof (raw_expires_silent info best u Hu Hs Hnone) as Hr.
    eexists. rewrite Hsame, Hlive. simpl. rewrite Hv, Hvid, Hbest, Hr. simpl.
    split; [reflexivity | split; [assumption | reflexivity]].
Qed.

Lemma getInfo_expires_witness :
  exists m m',
    getInfo (at_time 1499990000000 (Sample.world GetNil "212")) Sample.reference false
      = Resolved (Formatted m)
    /\ getInfo (at_time 1499990060000 (Sample.world GetNil "212")) Sample.reference
         false = Resolved (Formatted m')
    /\ Media.expires m <> None
    /\ Media.expires m <> Media.expires m'.
Proof.
  refine (proj2 (proj2 (proj1 (getInfo_expires (Sample.world GetNil "212")
            Sample.reference (Sample.video "212") (tag "webm" Sample.f250)
            (Sample.stream_url "250") _ _ _ _ _) 1500000000 _ _))
            1499990000000 1499990060000 _ _ _ _);
    try reflexivity; try (vm_compute; intuition congruence).
Defined.

(** C1, as the claim words it, fails: the URL of the chosen stream
    signals the expiry 1500000000, and the metadata returned holds
    neither that time less 900 nor any absolute time near it. *)
Lemma getInfo_expires_not_absolute :
  exists m, getInfo (Sample.world GetNil "212") Sample.reference false
              = Resolved (Formatted m)
            /\ (exists u, Media.audiourl m = Some u
                          /\ signaled_expiry u = Some (Dbl.Int 1500000000))
            /\ Media.expires m = Some (Dbl.Int 1498490000600)
            /\ Media.expires m <> Some (Dbl.Int (1500000000 - 900)).
Proof.
  eexists. split; [reflexivity|]. split.
  - eexists. split; reflexivity.
  - split; [reflexivity | discriminate].
Qed.

(** C2.  A failed read of the cache falls through to the live lookup,
    but an entry that is not JSON does not: with the truncated entry
    [{] in the cache, [getInfo] rejects with the [SyntaxError] of
    [JSON.parse], while the same world with a failing or an empty cache
    resolves the reference. *)
Theorem getInfo_corrupt_entry_rejects :
  getInfo (Sample.world (GetBulk "{") "212") Sample.reference false
    = Rejected SyntaxError
  /\ getInfo (Sample.world GetFailed "212") Sample.reference false
       = Resolved (Formatted (Sample.media 212))
  /\ getInfo (Sample.world GetNil "212") Sample.reference false
       = Resolved (Formatted (Sample.media 212)).
Proof. repeat split; reflexivity. Qed.

(** ** Admission: [add] *)

Lemma gt_const_truthy len : Numeric.gt_const len 5400 = true -> Js.truthy len = true.
Proof.
  destruct len as [| |b|n|s|l|fs]; try discriminate; try reflexivity.
  - destruct b; [reflexivity | discriminate].
  - destruct n as [| neg | q]; try discriminate; try reflexivity.
    unfold Numeric.gt_const. simpl. intros H.
    destruct (Qeq_bool q 0) eqn:Hq; [|reflexivity].
    apply Qeq_bool_iff in Hq.
    assert (Hle : Qle_bool q (inject_Z 5400) = true).
    { apply Qle_bool_iff. rewrite Hq. discriminate. }
    rewrite Hle in H. discriminate.
  - destruct s; [discriminate | reflexivity].
Qed.

Lemma too_long_iff mediaInfo :
  too_long mediaInfo = true <-> duration_exceeds mediaInfo 5400.
Proof.
  unfold too_long, duration_exceeds. split.
  - intros H. apply andb_true_iff in H as [_ H].
    destruct (InfoProp.length mediaInfo) as [len|]; [|discriminate].
    apply andb_true_iff in H as [_ H]. eauto.
  - intros (len & Hlen & Hgt). rewrite Hlen, Hgt, (gt_const_truthy _ Hgt).
    rewrite andb_true_r. destruct mediaInfo as [v| |]; try reflexivity.
    simpl in *. destruct v as [| |b|n|s|l|fs]; try discriminate; try reflexivity;
      injection Hlen as <-; try discriminate.
    destruct s; [discriminate | reflexivity].
Qed.

Lemma duration_exceeds_formatted m limit :
  duration_exceeds (Formatted m) limit
  <-> (exists n, Media.length m = Dbl.Int n /\ limit < n)
      \/ Media.length m = Dbl.Inf false.
Proof.
  unfold duration_exceeds. simpl. split.
  - intros (len & [= <-] & Hgt).
    destruct (Media.length m) as [|negative|n]; [discriminate | |].
    + destruct negative; [discriminate | now right].
    + left. exists n. split; [reflexivity|].
      unfold Numeric.gt_const in Hgt. simpl in Hgt.
      unfold Qle_bool in Hgt. simpl in Hgt.
      apply negb_true_iff, Z.leb_gt in Hgt. lia.
  - intros [(n & -> & Hn) | ->]; (eexists; split; [reflexivity|]).
    + unfold Numeric.gt_const. simpl. unfold Qle_bool. simpl.
      apply negb_true_iff, Z.leb_gt. lia.
    + reflexivity.
Qed.

Lemma add_string fuel w guildId voiceChannel s mediaInfo st :
  getInfo w (Str.replace_first "/<|>/g" EmptyString s) false = Resolved mediaInfo ->
  add fuel w guildId voiceChannel (Js.VStr s) st =
    if too_long mediaInfo then (st, Rejected tooLong)
    else queueSong fuel w guildId voiceChannel mediaInfo st.
Proof.
  intros H. unfold add, bind, settle. simpl. rewrite H.
  now destruct (too_long mediaInfo).
Qed.

(** C6.  [add] rejects with [tooLong] exactly the resolved items whose
    duration exceeds 5400 and hands every other one to [queueSong]: for
    live-resolved metadata the duration is its [length] in seconds (a
    number above 5400, or the infinity that [parseInt] gives for a run
    of digits no double holds), so 5401 is rejected and 5400 goes on
    to the queue. *)
Theorem add_duration_limit fuel w guildId voiceChannel s mediaInfo st :
  getInfo w (Str.replace_first "/<|>/g" EmptyString s) false = Resolved mediaInfo ->
  (duration_exceeds mediaInfo 5400 ->
     add fuel w guildId voiceChannel (Js.VStr s) st = (st, Rejected tooLong)) /\
  (~ duration_exceeds mediaInfo 5400 ->
     add fuel w guildId voiceChannel (Js.VStr s) st
       = queueSong fuel w guildId voiceChannel mediaInfo st) /\
  (forall m, mediaInfo = Formatted m ->
     (duration_exceeds mediaInfo 5400
      <-> (exists n, Media.length m = Dbl.Int n /\ 5400 < n)
          \/ Media.length m = Dbl.Inf false) /\
     (Media.length m = Dbl.Int 5401 ->
        add fuel w guildId voiceChannel (Js.VStr s) st = (st, Rejected tooLong)) /\
     (Media.length m = Dbl.Int 5400 ->
        add fuel w guildId voiceChannel (Js.VStr s) st
          = queueSong fuel w guildId voiceChannel mediaInfo st)).
Proof.
  intros H. rewrite (add_string _ _ _ _ _ _ _ H).
  assert (Hyes : duration_exceeds mediaInfo 5400 ->
                 (if too_long mediaInfo then (st, Rejected tooLong)
                  else queueSong fuel w guildId voiceChannel mediaInfo st)
                 = (st, Rejected tooLong)).
  { intros Hd. apply too_long_iff in Hd. now rewrite Hd. }
  assert (Hno : ~ duration_exceeds mediaInfo 5400 ->
                (if too_long mediaInfo then (st, Rejected tooLong)
                 else queueSong fuel w guildId voiceChannel mediaInfo st)
                = queueSong fuel w guildId voiceChannel mediaInfo st).
  { intros Hd. destruct (too_long mediaInfo) eqn:Ht; [|reflexivity].
    apply too_long_iff in Ht. contradiction. }
  repeat split; auto.
  - subst. now apply duration_exceeds_formatted.
  - subst. now apply duration_exceeds_formatted.
  - intros Hlen. apply Hyes. subst. apply duration_exceeds_formatted.
    left. exists 5401. split; [assumption | lia].
  - intros Hlen. apply Hno. subst. rewrite duration_exceeds_formatted.
    intros [(n & Hn & Hgt) | Hinf]; rewrite Hlen in *; [|discriminate].
    injection Hn as <-. lia.
Qed.

Lemma add_duration_limit_witness :
  add 2 (Sample.world GetNil "5401") "g1" Sample.voice
      (Js.VStr Sample.reference) Sample.idle
    = (Sample.idle, Rejected tooLong)
  /\ add 2 (Sample.world GetNil "5400") "g1" Sample.voice
       (Js.VStr Sample.reference) Sample.idle
     = queueSong 2 (Sample.world GetNil "5400") "g1" Sample.voice
         (Formatted (Sample.media 5400)) Sample.idle.
Proof.
  split.
  - refine (proj1 (proj2 (proj2 (proj2 (add_duration_limit 2
              (Sample.world GetNil "5401") "g1" Sample.voice Sample.reference
              (Formatted (Sample.media 5401)) Sample.idle _))
              (Sample.media 5401) eq_refl)) _); reflexivity.
  - refine (proj2 (proj2 (proj2 (proj2 (add_duration_limit 2
              (Sample.world GetNil "5400") "g1" Sample.voice Sample.reference
              (Formatted (Sample.media 5400)) Sample.idle _))
              (Sample.media 5400) eq_refl)) _); reflexivity.
Defined.

(** Anything that is neither a string nor [null], and whose [url] (when it
    is an object) is no string, is rejected with [invalidURL]. *)
Lemma add_rejects_invalid fuel w guildId voiceChannel url st :
  url <> Js.VNull -> (forall s, url <> Js.VStr s) ->
  (forall s, Js.get url "url" <> Some (Js.VStr s)) ->
  add fuel w guildId voiceChannel url st = (st, Rejected invalidURL).
Proof.
  intros Hnull Hstr Hurl. unfold add, bind, settle, reject.
  destruct url as [| |b|n|s|l|fs]; simpl; try reflexivity; try congruence.
  destruct (Js.lookup_field "url" fs) as [[| |b|n|s|l|fs']|] eqn:Hf; try reflexivity.
  exfalso. apply (Hurl s). simpl. now rewrite Hf.
Qed.

(** A reference without a slash comes out of the [replace] as it went
    in, brackets included. *)
Lemma replace_first_keeps s :
  (forall c, In c (list_ascii_of_string s) -> c <> "/"%char) ->
  Str.replace_first "/<|>/g" EmptyString s = s.
Proof.
  induction s as [|c s IH]; intros H; [reflexivity|].
  assert (Hc : c <> "/"%char) by (apply H; now left).
  assert (Hs : Str.replace_first "/<|>/g" EmptyString s = s)
    by (apply IH; intros x Hx; apply H; now right).
  change (Str.replace_first "/<|>/g" EmptyString (String c s))
    with (match (if Ascii.eqb "/" c then Str.strip_prefix "<|>/g" s else None) with
          | Some rest => EmptyString +:+ rest
          | None => String c (Str.replace_first "/<|>/g" EmptyString s)
          end).
  destruct (Ascii.eqb_spec "/" c) as [E|_]; [congruence|]. now rewrite Hs.
Qed.

(** C7.  The pattern handed to [replace] is the text [/<|>/g], not a
    regular expression, so the brackets stay: the bracketed reference
    reaches the resolver unchanged and is refused there, while the bare
    reference resolves.  And [null], which is an object to [typeof],
    ends [add] with a [TypeError] rather than with [invalidURL]. *)
Theorem add_keeps_brackets :
  Str.replace_first "/<|>/g" EmptyString "<https://youtu.be/o5Gk7xkBh0g>"
    = "<https://youtu.be/o5Gk7xkBh0g>"
  /\ add 2 (Sample.world GetNil "212") "g1" Sample.voice
       (Js.VStr "<https://youtu.be/o5Gk7xkBh0g>") Sample.idle
     = (Sample.idle, Rejected (Thrown "Error: No video id found"))
  /\ snd (add 2 (Sample.world GetNil "212") "g1" Sample.voice
            (Js.VStr "https://youtu.be/o5Gk7xkBh0g") Sample.idle)
     = Resolved (Formatted (Sample.media 212))
  /\ add 2 (Sample.world GetNil "212") "g1" Sample.voice Js.VNull Sample.idle
     = (Sample.idle, Rejected TypeError).
Proof. repeat split; reflexivity. Qed.

(** ** Binding a channel: [connect] *)

(** C10.  [connect] writes the binding before it checks permissions and
    before it joins: when it fails with [noPerms] or with [error], the
    guild is bound to the text channel of the call, [getBoundChannel]
    returns that channel, and no other binding has changed. *)
Theorem connect_binds_before_checks w voiceID textChannel st st' e :
  connect w voiceID textChannel st = (st', Rejected e) ->
  e = noPerms \/ e = error ->
  exists tc g,
    textChannel = Some tc /\ guild tc = Some g
    /\ connections st' !! id g = Some (channel_id tc)
    /\ (channel_id tc <> EmptyString ->
        getBoundChannel (id g) st' = Some (channel_id tc))
    /\ (forall g', g' <> id g -> connections st' !! g' = connections st !! g').
Proof.
  intros Hc He. unfold connect in Hc.
  destruct voiceID as [voice|]; [|injection Hc as <- <-; destruct He; discriminate].
  destruct textChannel as [tc|]; [|injection Hc as <- <-; destruct He; discriminate].
  destruct (guild tc) as [g|] eqn:Hg;
    [|injection Hc as <- <-; destruct He; discriminate].
  destruct (falsy_string (Some voice));
    [injection Hc as <- <-; destruct He; discriminate|].
  unfold bind, read, update, reject, ret in Hc. simpl in Hc.
  destruct (negb (falsy_string (connections st !! id g))
            && negb (bool_decide (connections st !! id g = Some (channel_id tc))));
    [injection Hc as <- <-; destruct He; discriminate|].
  assert (Hbound : forall st1,
             connections st1 = <[id g := channel_id tc]> (connections st) ->
             connections st1 !! id g = Some (channel_id tc)
             /\ (channel_id tc <> EmptyString ->
                 getBoundChannel (id g) st1 = Some (channel_id tc))
             /\ (forall g', g' <> id g -> connections st1 !! g' = connections st !! g')).
  { intros st1 H1. unfold getBoundChannel. rewrite H1, lookup_insert_eq.
    repeat split.
    - intros Hne. destruct (String.eqb_spec (channel_id tc) EmptyString); congruence.
    - intros g' Hg'. now rewrite lookup_insert_ne. }
  exists tc, g. do 2 (split; [reflexivity || assumption|]).
  destruct (hasPermissions w g).
  - simpl in Hc. destruct (joinVoiceChannel w voice) as [err|conn].
    + injection Hc as <- _. now apply Hbound.
    + discriminate.
  - simpl in Hc. injection Hc as <- _. now apply Hbound.
Qed.

Lemma connect_binds_before_checks_witness :
  exists st',
    connect (Sample.world GetNil "212") (Some "v9") (Some Sample.text) Sample.idle
      = (st', Rejected noPerms)
    /\ getBoundChannel "g1" Sample.idle = None
    /\ getBoundChannel "g1" st' = Some "c7".
Proof.
  eexists. split; [reflexivity|]. split; [reflexivity|].
  destruct (connect_binds_before_checks (Sample.world GetNil "212") (Some "v9")
              (Some Sample.text) Sample.idle _ noPerms eq_refl (or_introl eq_refl))
    as (tc & g & Htc & Hg & _ & Hb & _).
  injection Htc as <-. injection Hg as <-. apply Hb. discriminate.
Defined.

(** ** Skip votes *)

(** C8.  The vote of [skip] does not run on a module as its
    constructor leaves it.  The constructor creates [connections] and
    [volume] and no map of votes; with [this.votes] undefined, more
    than one item queued and more than 2 members in the channel, an
    unforced skip stops at [this.votes.get] with a [TypeError]: nobody
    is recorded, nothing is asked of the player, the state is as it
    was ([this.votes] still undefined), and the next voter meets the
    same. *)
Theorem skip_vote_without_map msg c st :
  votes st = None ->
  voice_channel msg = Some c -> 2 < members c ->
  1 < Z.of_nat (List.length (Queue.items (msg_guild_id msg) st)) ->
  skip msg false st = (st, Rejected TypeError)
  /\ votes (fst (skip msg false st)) = None
  /\ calls (fst (skip msg false st)) = calls st.
Proof.
  intros Hv Hc Hm Hq.
  assert (H : skip msg false st = (st, Rejected TypeError)).
  { unfold skip, bind, Queue.getLength, read, settle, needs_vote, current_votes.
    cbv beta iota zeta. rewrite Hc.
    destruct (Z.leb_spec (Z.of_nat (List.length (Queue.items (msg_guild_id msg) st))) 1);
      [lia|].
    destruct (Z.ltb_spec 2 (members c)); [|lia].
    now rewrite Hv. }
  rewrite H. auto.
Qed.

Lemma skip_vote_without_map_witness :
  skip (Sample.vote_msg "u1") false Sample.two_queued
  = (Sample.two_queued, Rejected TypeError).
Proof.
  refine (proj1 (skip_vote_without_map (Sample.vote_msg "u1") Sample.voice
                   Sample.two_queued eq_refl eq_refl _ _)); reflexivity.
Defined.

(** ** Queueing: [queueSong] *)

Lemma items_set g q st : Queue.items g (with_queue <[g := q]> st) = q.
Proof. unfold Queue.items. simpl. now rewrite lookup_insert_eq. Qed.

Lemma items_removed g st : Queue.items g (with_queue (delete g) st) = [].
Proof. unfold Queue.items. simpl. now rewrite lookup_delete_eq. Qed.

(** X27.  A request for a playing session.  While the session of the
    voice channel plays, [queueSong] puts the item at the end of the
    queue of the guild id it is given, behind the items that wait and
    whatever its metadata holds: the queue is one longer, the session
    still plays, nothing is asked of the player, and the item is the
    answer. *)
Theorem queueSong_playing_appends fuel w guildId voiceChannel mediaInfo st :
  getPlayingState voiceChannel st = true ->
  exists st',
    queueSong fuel w guildId voiceChannel mediaInfo st = (st', Resolved mediaInfo)
    /\ getPlayingState voiceChannel st' = true
    /\ Queue.items guildId st' = Queue.items guildId st ++ [mediaInfo]
    /\ List.length (Queue.items guildId st')
       = S (List.length (Queue.items guildId st))
    /\ (forall g, g <> guildId -> Queue.items g st' = Queue.items g st)
    /\ calls st' = calls st.
Proof.
  intros Hplaying.
  unfold queueSong, bind, read, Queue.add, ret.
  rewrite Hplaying. simpl. eexists. split; [reflexivity|].
  split; [exact Hplaying|]. split; [apply items_set|].
  split; [rewrite items_set, length_app; simpl; lia|].
  split; [|reflexivity].
  intros g Hg. unfold Queue.items. simpl. now rewrite lookup_insert_ne.
Qed.

Lemma queueSong_playing_appends_witness :
  exists st',
    queueSong 2 (Sample.world GetNil "212") "g1" Sample.voice
      (Formatted (Sample.media 212)) Sample.playing
    = (st', Resolved (Formatted (Sample.media 212)))
    /\ List.length (Queue.items "g1" Sample.playing) = 1%nat
    /\ List.length (Queue.items "g1" st') = 2%nat
    /\ calls st' = [].
Proof.
  destruct (queueSong_playing_appends 2 (Sample.world GetNil "212") "g1"
              Sample.voice (Formatted (Sample.media 212)) Sample.playing eq_refl)
    as (st' & Hq & _ & _ & Hlen & _ & Hcalls).
  exists st'. split; [exact Hq|]. split; [reflexivity|].
  split; [exact Hlen | exact Hcalls].
Defined.

(** ** The play transition *)

Lemma play_S fuel w channel mediaInfo :
  play (S fuel) w channel mediaInfo =
    if alone_with_bot w channel then Player.stop channel true
    else
      let guildId := guild_id channel in
      let* len := Queue.getLength guildId in
      if len =? 0 then reject noSongs
      else
        let* item := Queue.shift guildId in
        let* volume := read (volume_or_default guildId) in
        match given mediaInfo with
        | Some supplied => Player.play w channel supplied (Some volume)
        | None =>
            let* url := settle (chosen_url mediaInfo item) in
            let* resolved := settle (getInfo_of w url) in
            if negb (InfoProp.truthy resolved) then
              Queue.remove guildId ;;
              play fuel w channel None
            else
              let* playing := read (getPlayingState channel) in
              (if playing then Player.stop channel false else ret Stopped) ;;
              Player.play w channel resolved (Some volume)
        end.
Proof. reflexivity. Qed.

(** On an empty queue [play], with or without metadata, stops with
    [noSongs] (or stops the player when the bot is alone). *)
Lemma play_empty_queue fuel w channel mediaInfo st :
  Queue.items (guild_id channel) st = [] ->
  play (S fuel) w channel mediaInfo st =
    if alone_with_bot w channel then Player.stop channel true st
    else (st, Rejected noSongs).
Proof.
  intros Hq. rewrite play_S. destruct (alone_with_bot w channel); [reflexivity|].
  unfold bind, Queue.getLength, read, reject. now rewrite Hq.
Qed.

(** Two levels of recursion are all [play] ever uses. *)
Lemma play_more_fuel fuel w channel mediaInfo st :
  play (S (S fuel)) w channel mediaInfo st = play 2 w channel mediaInfo st.
Proof.
  rewrite (play_S (S fuel)), (play_S 1).
  destruct (alone_with_bot w channel) eqn:Halone; [reflexivity|].
  unfold bind, Queue.getLength, Queue.shift, Queue.remove, read, reject, settle, update.
  cbv zeta.
  destruct (Z.of_nat (List.length (Queue.items (guild_id channel) st)) =? 0);
    [reflexivity|].
  destruct (Queue.items (guild_id channel) st) as [|item rest]; [reflexivity|].
  destruct (given mediaInfo); [reflexivity|].
  destruct (chosen_url mediaInfo item); try reflexivity.
  destruct (getInfo_of w a) as [resolved| |]; try reflexivity.
  destruct (negb (InfoProp.truthy resolved)); [|reflexivity].
  rewrite !play_empty_queue by apply items_removed. reflexivity.
Qed.

(** The calls one run of [play] adds when no metadata is supplied:
    none, the stop of the bot left alone, or one play, which a stop
    precedes exactly when the session was playing. *)
Lemma play_resolution_calls fuel :
  forall w channel mediaInfo st st' r,
    given mediaInfo = None ->
    play fuel w channel mediaInfo st = (st', r) ->
    exists added,
      calls st' = calls st ++ added
      /\ (added = [] \/ added = [CallStop channel true]
          \/ (getPlayingState channel st = true
              /\ exists x v, added = [CallStop channel false; CallPlay channel x v])
          \/ (getPlayingState channel st = false
              /\ exists x v, added = [CallPlay channel x v])).
Proof.
  induction fuel as [|fuel IH]; intros w channel mediaInfo st st' r Hgiven Hplay.
  { injection Hplay as <- <-. exists []. rewrite app_nil_r. auto. }
  rewrite play_S in Hplay.
  destruct (alone_with_bot w channel).
  { injection Hplay as <- <-. exists [CallStop channel true]. auto. }
  unfold bind, Queue.getLength, Queue.shift, Queue.remove, read, reject, settle,
    update, ret in Hplay.
  cbv zeta in Hplay.
  destruct (Z.of_nat (List.length (Queue.items (guild_id channel) st)) =? 0).
  { injection Hplay as <- <-. exists []. rewrite app_nil_r. auto. }
  destruct (Queue.items (guild_id channel) st) as [|item rest].
  { injection Hplay as <- <-. exists []. rewrite app_nil_r. auto. }
  rewrite Hgiven in Hplay.
  destruct (chosen_url mediaInfo item) as [url| |];
    try (injection Hplay as <- <-; exists []; rewrite app_nil_r; now auto).
  destruct (getInfo_of w url) as [resolved| |];
    try (injection Hplay as <- <-; exists []; rewrite app_nil_r; now auto).
  destruct (negb (InfoProp.truthy resolved)).
  { apply IH in Hplay; [|reflexivity]. exact Hplay. }
  change (getPlayingState channel
            (with_queue <[guild_id channel := rest]> st))
    with (getPlayingState channel st) in Hplay.
  unfold Player.play, Player.stop in Hplay.
  destruct (getPlayingState channel st) eqn:Hplaying;
    destruct (player_play_fails w channel resolved);
    injection Hplay as <- <-; simpl; rewrite <- ?app_assoc; simpl;
    eexists; (split; [reflexivity|]); eauto 8.
Qed.

Lemma stop_precedes_play_shapes channel added :
  added = [] \/ added = [CallStop channel true]
  \/ (exists x v, added = [CallStop channel false; CallPlay channel x v]) ->
  stop_precedes_play channel added.
Proof.
  intros H before mediaInfo vol after E.
  destruct H as [-> | [-> | (x & v & ->)]].
  - destruct before; discriminate.
  - destruct before as [|b [|b' before]]; discriminate.
  - destruct before as [|b [|b' [|b'' before]]]; try discriminate.
    injection E as <- _. exists false. now left.
Qed.

(** C4, as the code has it.  When [play] is called without metadata on
    a playing session, every play it issues comes after a stop.  When
    metadata is supplied, the queue is not empty and the bot is not
    alone, the one call it makes is the play of that metadata, with no
    stop before it, whether the session is playing or not. *)
Theorem play_stop_before_play fuel w channel mediaInfo st st' r :
  play fuel w channel mediaInfo st = (st', r) ->
  (given mediaInfo = None -> getPlayingState channel st = true ->
   exists added, calls st' = calls st ++ added
                 /\ stop_precedes_play channel added) /\
  (forall supplied,
     given mediaInfo = Some supplied -> (1 <= fuel)%nat ->
     alone_with_bot w channel = false ->
     Queue.items (guild_id channel) st <> [] ->
     calls st' = calls st
                 ++ [CallPlay channel supplied
                       (Some (volume_or_default (guild_id channel) st))]).
Proof.
  intros Hplay. split.
  - intros Hgiven Hplaying.
    destruct (play_resolution_calls fuel w channel mediaInfo st st' r Hgiven Hplay)
      as (added & Hcalls & Hshape).
    exists added. split; [exact Hcalls|].
    apply stop_precedes_play_shapes.
    destruct Hshape as [H | [H | [[_ H] | [Hidle _]]]]; auto; congruence.
  - intros supplied Hgiven Hfuel Halone Hq.
    destruct fuel as [|fuel]; [lia|]. rewrite play_S, Halone in Hplay.
    unfold bind, Queue.getLength, Queue.shift, read, reject, Player.play in Hplay.
    cbv beta iota zeta in Hplay.
    destruct (Queue.items (guild_id channel) st) as [|item rest] eqn:Hitems;
      [congruence|].
    simpl in Hplay. rewrite Hgiven in Hplay. rewrite ?Hitems in Hplay.
    destruct (player_play_fails w channel supplied); now injection Hplay as <- _.
Qed.

Lemma play_stop_before_play_witness :
  exists added,
    calls (fst (play 2 (Sample.world GetNil "212") Sample.voice None Sample.playing))
      = calls Sample.playing ++ added
    /\ stop_precedes_play Sample.voice added.
Proof.
  exact (proj1 (play_stop_before_play 2 (Sample.world GetNil "212") Sample.voice
                  None Sample.playing _ _ (surjective_pairing _))
           eq_refl eq_refl).
Defined.

(** C4, as the claim words it, fails on the path with metadata: the
    session is playing, [play] is called with metadata, and the only
    call made on the player is the play. *)
Lemma play_with_metadata_issues_no_stop :
  getPlayingState Sample.voice Sample.playing = true
  /\ calls Sample.playing = []
  /\ calls (fst (play 2 (Sample.world GetNil "212") Sample.voice
                   (Some (Formatted (Sample.media 212))) Sample.playing))
     = [CallPlay Sample.voice (Formatted (Sample.media 212)) (Some (Js.of_Z 2))]
  /\ ~ stop_precedes_play Sample.voice
         [CallPlay Sample.voice (Formatted (Sample.media 212)) (Some (Js.of_Z 2))].
Proof.
  split; [reflexivity|]. split; [reflexivity|]. split; [reflexivity|].
  intros H. destruct (H [] _ _ [] eq_refl) as [b []].
Qed.

Lemma getInfo_of_finishes w url : getInfo_of w url <> Unfinished.
Proof.
  destruct url; try discriminate. simpl. unfold getInfo.
  destruct (cached_text w s); [destruct (JSON.parse s0); discriminate|].
  unfold resolve_live.
  repeat match goal with
         | |- match ?x with _ => _ end <> _ => destruct x; try discriminate
         | |- (if ?x then _ else _) <> _ => destruct x; try discriminate
         end.
Qed.

Lemma chosen_url_finishes mediaInfo item : chosen_url mediaInfo item <> Unfinished.
Proof.
  unfold chosen_url, prop.
  repeat match goal with
         | |- match ?x with _ => _ end <> _ => destruct x; try discriminate
         | |- (if ?x then _ else _) <> _ => destruct x; try discriminate
         end.
Qed.

(** With two levels of recursion [play] always comes to an end. *)
Lemma play_two_finishes w channel mediaInfo st :
  snd (play 2 w channel mediaInfo st) <> Unfinished.
Proof.
  rewrite play_S.
  destruct (alone_with_bot w channel) eqn:Halone; [discriminate|].
  unfold bind, Queue.getLength, Queue.shift, Queue.remove, read, reject, settle,
    update, ret, Player.play, Player.stop.
  cbv zeta.
  destruct (Z.of_nat (List.length (Queue.items (guild_id channel) st)) =? 0);
    [discriminate|].
  destruct (Queue.items (guild_id channel) st) as [|item rest]; [discriminate|].
  destruct (given mediaInfo) as [supplied|].
  { destruct (player_play_fails w channel supplied); discriminate. }
  pose proof (chosen_url_finishes mediaInfo item) as Hurl.
  destruct (chosen_url mediaInfo item) as [url|e|]; [|discriminate|congruence].
  pose proof (getInfo_of_finishes w url) as Hinfo.
  destruct (getInfo_of w url) as [resolved|e|]; [|discriminate|congruence].
  destruct (negb (InfoProp.truthy resolved)).
  - rewrite play_empty_queue by apply items_removed.
    rewrite Halone. discriminate.
  - destruct (getPlayingState channel _);
      destruct (player_play_fails w channel resolved); discriminate.
Qed.

(** The retry: a dead item at the head of the queue empties the queue
    and the second run ends with [noSongs]. *)
Lemma play_dead_item fuel w channel mediaInfo st item rest url resolved :
  alone_with_bot w channel = false ->
  Queue.items (guild_id channel) st = item :: rest ->
  given mediaInfo = None ->
  chosen_url mediaInfo item = Resolved url ->
  getInfo_of w url = Resolved resolved ->
  InfoProp.truthy resolved = false ->
  play (S (S fuel)) w channel mediaInfo st
  = (with_queue (delete (guild_id channel))
       (with_queue <[guild_id channel := rest]> st),
     Rejected noSongs).
Proof.
  intros Halone Hq Hgiven Hurl Hinfo Hdead.
  rewrite play_S, Halone.
  unfold bind, Queue.getLength, Queue.shift, Queue.remove, read, reject, settle,
    update.
  cbv beta iota zeta. rewrite !Hq.
  destruct (Z.eqb_spec (Z.of_nat (List.length (item :: rest))) 0) as [E|_];
    [simpl in E; lia|].
  cbv beta iota zeta. rewrite Hq. cbv beta iota zeta.
  rewrite Hgiven. cbv beta iota zeta.
  rewrite Hurl. cbv beta iota zeta. rewrite Hinfo. cbv beta iota zeta.
  rewrite Hdead. cbn [negb]. cbv beta iota zeta.
  rewrite play_empty_queue by apply items_removed. now rewrite Halone.
Qed.

(** C9.  The retry of [play] on a dead item is bounded: two levels of
    recursion are enough for every call, more fuel changes nothing, and
    no run with that much is cut short.  On the retry itself (the item
    popped resolves to a falsy value) the queue of the session is
    cleared and the second run, made without metadata, ends with
    [noSongs] without a call on the player. *)
Theorem play_retry_terminates fuel w channel mediaInfo st :
  (2 <= fuel)%nat ->
  play fuel w channel mediaInfo st = play 2 w channel mediaInfo st
  /\ snd (play fuel w channel mediaInfo st) <> Unfinished
  /\ (forall item rest url resolved,
        alone_with_bot w channel = false ->
        Queue.items (guild_id channel) st = item :: rest ->
        given mediaInfo = None ->
        chosen_url mediaInfo item = Resolved url ->
        getInfo_of w url = Resolved resolved ->
        InfoProp.truthy resolved = false ->
        exists st',
          play fuel w channel mediaInfo st = (st', Rejected noSongs)
          /\ Queue.items (guild_id channel) st' = []
          /\ calls st' = calls st).
Proof.
  intros Hfuel. destruct fuel as [|[|fuel]]; try lia.
  split; [apply play_more_fuel|]. split.
  - rewrite play_more_fuel. apply play_two_finishes.
  - intros item rest url resolved Halone Hq Hgiven Hurl Hinfo Hdead.
    eexists. split; [now apply (play_dead_item fuel w channel mediaInfo st item rest
                                  url resolved)|].
    split; [apply items_removed | reflexivity].
Qed.

Lemma play_retry_terminates_witness :
  exists st',
    play 7 (Sample.world (GetBulk "null") "212") Sample.voice None Sample.playing
      = (st', Rejected noSongs)
    /\ Queue.items "g1" st' = []
    /\ calls st' = [].
Proof.
  refine (proj2 (proj2 (play_retry_terminates 7 (Sample.world (GetBulk "null") "212")
                          Sample.voice None Sample.playing _))
            (Formatted (Sample.media 200)) [] (Js.VStr Sample.watch_url)
            (Parsed Js.VNull) _ _ _ _ _ _);
    first [reflexivity | lia].
Defined.

(** * More of the module *)

(** ** Bindings *)

Lemma state_eq (a b : State) :
  connections a = connections b -> volume a = volume b -> votes a = votes b ->
  queue a = queue b -> voiceConnections a = voiceConnections b ->
  calls a = calls b -> log a = log b -> a = b.
Proof. destruct a, b; simpl; intros; subst; reflexivity. Qed.

(** X1.  A binding reads back: after [bindChannel] the guild reads as
    bound to the channel (an empty id reads as unbound), whatever was
    bound before; binding twice is binding once; [unbindChannel] makes
    the guild read as unbound; and neither touches another guild. *)
Theorem bindChannel_roundtrip (g c : string) (st : State) :
  (c <> EmptyString -> getBoundChannel g (bindChannel g c st) = Some c) /\
  getBoundChannel g (bindChannel g EmptyString st) = None /\
  (forall c', c <> EmptyString ->
     getBoundChannel g (bindChannel g c (bindChannel g c' st)) = Some c) /\
  bindChannel g c (bindChannel g c st) = bindChannel g c st /\
  getBoundChannel g (unbindChannel g (bindChannel g c st)) = None /\
  (forall g', g' <> g ->
     getBoundChannel g' (bindChannel g c st) = getBoundChannel g' st
     /\ getBoundChannel g' (unbindChannel g st) = getBoundChannel g' st).
Proof.
  unfold getBoundChannel, bindChannel, unbindChannel. simpl.
  repeat split.
  - intros Hc. rewrite lookup_insert_eq.
    destruct (String.eqb_spec c EmptyString); congruence.
  - now rewrite lookup_insert_eq.
  - intros c' Hc. rewrite lookup_insert_eq.
    destruct (String.eqb_spec c EmptyString); congruence.
  - apply state_eq; simpl; try reflexivity. apply insert_insert_eq.
  - now rewrite lookup_delete_eq.
  - now rewrite lookup_insert_ne.
  - now rewrite lookup_delete_ne.
Qed.

Lemma bindChannel_roundtrip_witness :
  getBoundChannel "g1" (bindChannel "g1" "c7" Sample.empty) = Some "c7".
Proof.
  apply (proj1 (bindChannel_roundtrip "g1" "c7" Sample.empty)). discriminate.
Defined.

(** ** [connect], path by path *)

(** [connect] once the voice id, the text channel and its guild are
    there. *)
Lemma connect_valid w voice tc g st :
  guild tc = Some g -> voice <> EmptyString ->
  connect w (Some voice) (Some tc) st =
    if negb (falsy_string (connections st !! id g))
       && negb (bool_decide (connections st !! id g = Some (channel_id tc)))
    then (st, Rejected alreadyBinded)
    else
      let st1 := bindChannel (id g) (channel_id tc) st in
      if negb (hasPermissions w g) then (st1, Rejected noPerms)
      else
        match joinVoiceChannel w voice with
        | inr connection => (st1, Resolved connection)
        | inl err =>
            (with_log ("Could not join voice channel " +:+ voice +:+ " in "
                       +:+ name g +:+ " (" +:+ id g +:+ ") - " +:+ err) st1,
             Rejected error)
        end.
Proof.
  intros Hg Hv. unfold connect. rewrite Hg. simpl.
  destruct (String.eqb_spec voice EmptyString) as [E|_]; [contradiction|].
  unfold bind, read, update, reject, ret. simpl.
  destruct (negb (falsy_string (connections st !! id g))
            && negb (bool_decide (connections st !! id g = Some (channel_id tc))));
    [reflexivity|].
  destruct (hasPermissions w g); simpl; [|reflexivity].
  now destruct (joinVoiceChannel w voice).
Qed.

(** X2.  Without a voice id, without a text channel or with a text
    channel that belongs to no guild, [connect] rejects with
    [notChannel] and leaves the state as it was: nothing is bound. *)
Theorem connect_rejects_missing w voiceID textChannel st :
  falsy_string voiceID = true \/ textChannel = None
  \/ (exists tc, textChannel = Some tc /\ guild tc = None) ->
  connect w voiceID textChannel st = (st, Rejected notChannel).
Proof.
  intros H. unfold connect.
  destruct voiceID as [voice|]; [|reflexivity].
  destruct textChannel as [tc|]; [|reflexivity].
  destruct (guild tc) as [g|] eqn:Hg; [|reflexivity].
  destruct H as [H | [H | (tc' & [= <-] & H)]]; try congruence.
  now rewrite H.
Qed.

Lemma connect_rejects_missing_witness :
  connect (Cases.open_world GetNil "212") (Some EmptyString) (Some Sample.text)
    Sample.idle
  = (Sample.idle, Rejected notChannel).
Proof.
  apply connect_rejects_missing. left. reflexivity.
Defined.

(** X3.  A guild that is bound to a text channel refuses every other
    one: [connect] with a different text channel of the guild rejects
    with [alreadyBinded] before it looks at permissions, and the state,
    the old binding included, stays as it was. *)
Theorem connect_already_bound w voice tc g bound st :
  guild tc = Some g -> voice <> EmptyString ->
  connections st !! id g = Some bound ->
  bound <> EmptyString -> bound <> channel_id tc ->
  connect w (Some voice) (Some tc) st = (st, Rejected alreadyBinded)
  /\ getBoundChannel (id g) st = Some bound.
Proof.
  intros Hg Hv Hb Hne Hdiff. rewrite (connect_valid w voice tc g st Hg Hv), Hb.
  unfold getBoundChannel. rewrite Hb. simpl.
  destruct (String.eqb_spec bound EmptyString) as [E|_]; [contradiction|].
  simpl. rewrite bool_decide_eq_false_2 by congruence. auto.
Qed.

Lemma connect_already_bound_witness :
  connect (Cases.open_world GetNil "212") (Some "v9") (Some Cases.other_text)
    (bindChannel "g1" "c7" Sample.idle)
  = (bindChannel "g1" "c7" Sample.idle, Rejected alreadyBinded)
  /\ getBoundChannel "g1" (bindChannel "g1" "c7" Sample.idle) = Some "c7".
Proof.
  apply (connect_already_bound (Cases.open_world GetNil "212") "v9" Cases.other_text
           {| id := "g1"; name := "Guild" |} "c7"); first [reflexivity | discriminate].
Defined.

(** X4.  When the guild is free (or bound to this very channel), the
    bot has its permissions and the voice server answers, [connect]
    resolves with the connection, the guild is bound to the text
    channel, and nothing is logged; when the voice server fails instead,
    exactly one line is logged and the rejection is [error]. *)
Theorem connect_joins w voice tc g st :
  guild tc = Some g -> voice <> EmptyString ->
  (connections st !! id g = None \/ connections st !! id g = Some (channel_id tc)) ->
  hasPermissions w g = true ->
  (forall connection, joinVoiceChannel w voice = inr connection ->
     connect w (Some voice) (Some tc) st
     = (bindChannel (id g) (channel_id tc) st, Resolved connection)) /\
  (forall err, joinVoiceChannel w voice = inl err ->
     exists line,
       connect w (Some voice) (Some tc) st
       = (with_log line (bindChannel (id g) (channel_id tc) st), Rejected error)).
Proof.
  intros Hg Hv Hfree Hperm. rewrite (connect_valid w voice tc g st Hg Hv), Hperm.
  assert (Hgate : negb (falsy_string (connections st !! id g))
                  && negb (bool_decide (connections st !! id g = Some (channel_id tc)))
                  = false).
  { destruct Hfree as [-> | ->]; [reflexivity|].
    rewrite bool_decide_eq_true_2 by reflexivity. apply andb_false_r. }
  rewrite Hgate. simpl. split.
  - intros connection ->. reflexivity.
  - intros err ->. eexists. reflexivity.
Qed.

Lemma connect_joins_witness :
  connect (Cases.open_world GetNil "212") (Some "v9") (Some Sample.text) Sample.idle
  = (bindChannel "g1" "c7" Sample.idle, Resolved "connection").
Proof.
  apply (proj1 (connect_joins (Cases.open_world GetNil "212") "v9" Sample.text
                  {| id := "g1"; name := "Guild" |} Sample.idle
                  eq_refl ltac:(discriminate) (or_introl eq_refl) eq_refl)).
  reflexivity.
Defined.

(** X5.  A failed [connect] locks the guild: after [connect] has failed
    with [noPerms] or with [error] for one text channel, a [connect]
    for any other text channel of the guild is rejected with
    [alreadyBinded], in every world, until the guild is unbound. *)
Theorem connect_failure_locks_guild w voice tc g st st' e :
  guild tc = Some g -> voice <> EmptyString -> channel_id tc <> EmptyString ->
  connect w (Some voice) (Some tc) st = (st', Rejected e) ->
  e = noPerms \/ e = error ->
  forall w' voice' tc',
    guild tc' = Some g -> voice' <> EmptyString ->
    channel_id tc' <> channel_id tc ->
    connect w' (Some voice') (Some tc') st' = (st', Rejected alreadyBinded)
    /\ snd (connect w' (Some voice') (Some tc') (unbindChannel (id g) st'))
       <> Rejected alreadyBinded.
Proof.
  intros Hg Hv Hc Hconn He w' voice' tc' Hg' Hv' Hdiff.
  rewrite (connect_valid w voice tc g st Hg Hv) in Hconn.
  assert (Hbound : connections st' !! id g = Some (channel_id tc)).
  { destruct (negb (falsy_string (connections st !! id g))
              && negb (bool_decide (connections st !! id g = Some (channel_id tc)))).
    { injection Hconn as <- <-. destruct He; discriminate. }
    cbv zeta in Hconn. destruct (negb (hasPermissions w g)).
    - injection Hconn as <- _. simpl. apply lookup_insert_eq.
    - destruct (joinVoiceChannel w voice); [|discriminate].
      injection Hconn as <- _. simpl. apply lookup_insert_eq. }
  split.
  - apply (connect_already_bound w' voice' tc' g (channel_id tc) st'); auto.
  - rewrite (connect_valid w' voice' tc' g _ Hg' Hv').
    unfold unbindChannel. simpl. rewrite lookup_delete_eq. simpl.
    destruct (negb (hasPermissions w' g)); [discriminate|].
    destruct (joinVoiceChannel w' voice'); discriminate.
Qed.

Lemma connect_failure_locks_guild_witness :
  exists st',
    connect (Sample.world GetNil "212") (Some "v9") (Some Sample.text) Sample.idle
      = (st', Rejected noPerms)
    /\ connect (Cases.open_world GetNil "212") (Some "v9") (Some Cases.other_text) st'
       = (st', Rejected alreadyBinded).
Proof.
  eexists. split; [reflexivity|].
  exact (proj1 (connect_failure_locks_guild (Sample.world GetNil "212") "v9"
           Sample.text {| id := "g1"; name := "Guild" |} Sample.idle _ noPerms
           eq_refl ltac:(discriminate) ltac:(discriminate) eq_refl (or_introl eq_refl)
           (Cases.open_world GetNil "212") "v9" Cases.other_text
           eq_refl ltac:(discriminate) ltac:(discriminate))).
Defined.

(** ** Resolution, path by path *)


(** X6.  A non-empty cache entry that parses is the answer: [getInfo]
    resolves to the parsed entry whatever [fetchAll] says, and neither
    the resolver nor the clock has a say (any world with the same hash
    and the same cache gives the same answer).  An entry that is the
    empty string counts as a miss. *)
Theorem getInfo_cache_hit w url text v :
  redis_getAsync w (cache_key w url) = GetBulk text ->
  (text <> EmptyString -> JSON.parse text = Some v ->
   forall w' fetchAll,
     sha256_hex w' = sha256_hex w -> redis_getAsync w' = redis_getAsync w ->
     getInfo w' url fetchAll = Resolved (Parsed v)) /\
  (text = EmptyString ->
   forall fetchAll,
     getInfo w url fetchAll = resolve_live w fetchAll (ytdl_getInfoAsync w url)).
Proof.
  intros Hget. split.
  - intros Hne Hparse w' fetchAll Hsha Hredis.
    unfold getInfo, cached_text, cache_key. rewrite Hsha, Hredis.
    unfold cache_key in Hget. rewrite Hget.
    destruct (String.eqb_spec text EmptyString); [contradiction|]. now rewrite Hparse.
  - intros -> fetchAll. unfold getInfo, cached_text. now rewrite Hget.
Qed.

Lemma getInfo_cache_hit_witness :
  getInfo (Sample.world (GetBulk "null") "212") Sample.reference true
  = Resolved (Parsed Js.VNull).
Proof.
  refine (proj1 (getInfo_cache_hit (Sample.world (GetBulk "null") "212")
                   Sample.reference "null" _ eq_refl) _ _ _ true eq_refl eq_refl);
    [discriminate | reflexivity].
Defined.








(** X8.  Failures of a live resolution.  Without a cache entry, an
    error of ytdl is passed on as it is; an answer without info, without
    video id or with an empty one is [noVideoFound], whatever formats it
    has; and [fetchAll] changes nothing about failures: the two modes
    reject together, with the same error. *)
Theorem getInfo_live_failures w url :
  cached_text w url = None ->
  (forall e fetchAll, ytdl_getInfoAsync w url = YtdlThrows e ->
     getInfo w url fetchAll = Rejected (Thrown e)) /\
  (forall fetchAll, ytdl_getInfoAsync w url = YtdlReturns None ->
     getInfo w url fetchAll = Rejected noVideoFound) /\
  (forall info fetchAll, ytdl_getInfoAsync w url = YtdlReturns (Some info) ->
     falsy_string (Raw.video_id info) = true ->
     getInfo w url fetchAll = Rejected noVideoFound) /\
  (forall e, getInfo w url true = Rejected e <-> getInfo w url false = Rejected e).
Proof.
  intros Hmiss. unfold getInfo. rewrite Hmiss. unfold resolve_live.
  split; [|split; [|split]].
  - now intros e fetchAll ->.
  - now intros fetchAll ->.
  - intros info fetchAll -> Hid. destruct (Raw.video_id info) as [vid|]; [|reflexivity].
    simpl in Hid. now rewrite Hid.
  - intros e. destruct (ytdl_getInfoAsync w url) as [x|[info|]]; try tauto.
    destruct (Raw.video_id info) as [vid|]; [|tauto].
    destruct (String.eqb vid EmptyString); [tauto|].
    destruct (getBestAudio info) as [[best|]|x]; try tauto.
    split; discriminate.
Qed.

Lemma getInfo_live_failures_witness :
  getInfo (Sample.world GetNil "212") "https://example.net/nothing" false
  = Rejected (Thrown "Error: No video id found").
Proof.
  exact (proj1 (getInfo_live_failures (Sample.world GetNil "212")
                  "https://example.net/nothing" eq_refl)
           "Error: No video id found" false eq_refl).
Defined.

(** X9.  A video without an audible stream has no named failure: when
    no entry of the formats has a positive audio bitrate, a live
    [getInfo] ends with a [TypeError], in both modes. *)
Theorem getInfo_no_audible_stream w url info fetchAll :
  cached_text w url = None ->
  ytdl_getInfoAsync w url = YtdlReturns (Some info) ->
  falsy_string (Raw.video_id info) = false ->
  (forall f, In f (Raw.formats info) -> audible f = false) ->
  getInfo w url fetchAll = Rejected TypeError.
Proof.
  intros Hmiss Hy Hid Hsilent. unfold getInfo. rewrite Hmiss, Hy. unfold resolve_live.
  destruct (Raw.video_id info) as [vid|]; [|discriminate]. simpl in Hid. rewrite Hid.
  assert (Hfam : forall type p,
             getFormatUrl type (List.filter p (Raw.formats info)) = Throws TypeError).
  { intros type p. unfold getFormatUrl. rewrite bestaudio_none; [reflexivity|].
    intros f Hf. apply filter_In in Hf as [Hf _]. auto. }
  unfold getBestAudio. cbv zeta.
  repeat match goal with
         | |- context [if ?c then _ else _] => destruct c
         end; rewrite ?Hfam; reflexivity.
Qed.

Lemma getInfo_no_audible_stream_witness :
  getInfo Cases.mute_world Sample.reference false = Rejected TypeError
  /\ getInfo Cases.mute_world Sample.reference true = Rejected TypeError.
Proof.
  split; apply getInfo_no_audible_stream with (info := Cases.mute);
    try reflexivity; intros f [<- | [<- | []]]; reflexivity.
Defined.

(** X10.  No fall-through between families.  When some entry has a
    webm itag but none of those is audible, [getBestAudio] throws
    without looking at the mp4 entries, however good they are; and
    when the best entry of the family has no URL it returns nothing. *)
Theorem getBestAudio_no_fallthrough info :
  let webm := List.filter (itag_in webm_itags) (Raw.formats info) in
  webm <> [] ->
  ((forall f, In f webm -> audible f = false) ->
     getBestAudio info = Throws TypeError) /\
  (forall f, bestaudio webm = Some f -> has_url f = false ->
     getBestAudio info = Returns None).
Proof.
  cbv zeta. intros Hw. unfold getBestAudio. cbv zeta.
  rewrite (is_nil_false _ Hw). cbn [negb]. unfold getFormatUrl. split.
  - intros Hsilent. now rewrite bestaudio_none.
  - intros f -> ->. reflexivity.
Qed.

Lemma getBestAudio_no_fallthrough_witness :
  getBestAudio Cases.silent = Throws TypeError
  /\ getInfo Cases.silent_world Sample.reference false = Rejected TypeError.
Proof.
  split; [|reflexivity].
  apply (proj1 (getBestAudio_no_fallthrough Cases.silent ltac:(discriminate))).
  intros f [<- | []]. reflexivity.
Defined.

(** ** The expiry in a stream URL *)

Lemma exec_expire_eq s :
  Str.exec_expire s =
    match
      match Str.strip_prefix "&expire=" s with
      | Some after =>
          match Str.span_digits after with
          | (EmptyString, _) => None
          | (d, _) => Some d
          end
      | None => None
      end
    with
    | Some d => Some d
    | None =>
        match s with
        | String _ rest => Str.exec_expire rest
        | EmptyString => None
        end
    end.
Proof. destruct s; reflexivity. Qed.

Lemma span_digits_app d r :
  all_digits d = true -> starts_with_digit r = false ->
  Str.span_digits (d +:+ r) = (d, r).
Proof.
  induction d as [|c d IH]; simpl; intros Hd Hr.
  - destruct r as [|c r]; [reflexivity|]. simpl in *. now rewrite Hr.
  - apply andb_true_iff in Hd as [Hc Hd]. now rewrite Hc, IH.
Qed.

Lemma span_digits_digits s d r :
  Str.span_digits s = (d, r) -> all_digits d = true.
Proof.
  revert d r. induction s as [|c s IH]; simpl; intros d r H.
  - now injection H as <- <-.
  - destruct (Str.is_digit c) eqn:Hc.
    + destruct (Str.span_digits s) as [d' r'] eqn:Hs. injection H as <- <-.
      simpl. rewrite Hc. eauto.
    + now injection H as <- <-.
Qed.

Lemma exec_expire_digits s d :
  Str.exec_expire s = Some d -> d <> EmptyString /\ all_digits d = true.
Proof.
  induction s as [|c s IH]; rewrite exec_expire_eq.
  - simpl. discriminate.
  - destruct (Str.strip_prefix "&expire=" (String c s)) as [after|]; [|exact IH].
    destruct (Str.span_digits after) as [[|c' d'] r] eqn:Hs; [exact IH|].
    intros [= <-]. split; [discriminate|]. eapply span_digits_digits; eauto.
Qed.

Lemma digit_value_digit c :
  Str.is_digit c = true ->
  Str.digit_value 10 c = Some (Str.code c - 48) /\ 0 <= Str.code c - 48 <= 9.
Proof.
  unfold Str.is_digit, Str.digit_value, Str.hex_value. intros H. rewrite H.
  apply andb_true_iff in H as [H1 H2]. apply Z.leb_le in H1, H2.
  destruct (Z.ltb_spec (Str.code c - 48) 10); [|lia].
  split; [reflexivity | lia].
Qed.

Lemma read_digits_all acc count d :
  all_digits d = true -> 0 <= acc ->
  Str.read_digits 10 acc count d
    = (decimal acc d, (count + String.length d)%nat, EmptyString)
  /\ 0 <= decimal acc d.
Proof.
  revert acc count. induction d as [|c d IH]; simpl; intros acc count Hd Hacc.
  - rewrite Nat.add_0_r. auto.
  - apply andb_true_iff in Hd as [Hc Hd].
    destruct (digit_value_digit c Hc) as (-> & Hv).
    destruct (IH (acc * 10 + (Str.code c - 48)) (S count) Hd ltac:(lia))
      as (-> & Hx).
    split; [f_equal; f_equal; lia | assumption].
Qed.

(** [parseInt] of a non-empty run of decimal digits is the double
    nearest to the integer the run denotes. *)
Lemma parseInt_digits d :
  d <> EmptyString -> all_digits d = true ->
  Str.parseInt d = Dbl.round (decimal 0 d) /\ 0 <= decimal 0 d.
Proof.
  destruct d as [|c d]; [congruence|]. intros _ Hd.
  assert (Hc : Str.is_digit c = true) by (simpl in Hd; now apply andb_true_iff in Hd).
  destruct (read_digits_all 0 0 (String c d) Hd ltac:(lia)) as (Hv & Hpos).
  split; [|exact Hpos].
  assert (Hspace : Str.is_space c = false).
  { unfold Str.is_digit in Hc. unfold Str.is_space.
    apply andb_true_iff in Hc as [H1 H2]. apply Z.leb_le in H1, H2.
    destruct (Z.leb_spec (Str.code c) 13); [lia|]. rewrite andb_false_r. simpl.
    apply Z.eqb_neq. lia. }
  unfold Str.parseInt, Str.parseInt_gen. simpl Str.skip_spaces. rewrite Hspace.
  destruct (Ascii.eqb_spec c "0") as [->|Hz].
  - destruct d as [|c' d'].
    + reflexivity.
    + assert (Hc' : Str.is_digit c' = true).
      { simpl in Hd. now apply andb_true_iff in Hd as [Hd _]. }
      assert (Hx : Ascii.eqb c' "x" = false /\ Ascii.eqb c' "X" = false).
      { split; apply Ascii.eqb_neq; intros ->; discriminate. }
      destruct Hx as [Hx HX].
      replace (match String "0" (String c' d') with
               | String "0" (String "x" rest) => (16, rest)
               | String "0" (String "X" rest) => (16, rest)
               | _ => (10, String "0" (String c' d'))
               end) with (10, String "0" (String c' d')).
      * rewrite Hv. cbv beta iota. f_equal. lia.
      * clear - Hx HX. destruct c' as [[] [] [] [] [] [] [] []];
          try reflexivity; discriminate.
  - replace (match String c d with
             | String "-" rest => (-1, rest)
             | String "+" rest => (1, rest)
             | _ => (1, String c d)
             end) with (1, String c d).
    + replace (match String c d with
               | String "0" (String "x" rest) => (16, rest)
               | String "0" (String "X" rest) => (16, rest)
               | _ => (10, String c d)
               end) with (10, String c d).
      * rewrite Hv. cbv beta iota. f_equal. lia.
      * clear - Hz. destruct c as [[] [] [] [] [] [] [] []];
          try reflexivity; congruence.
    + clear - Hc. destruct c as [[] [] [] [] [] [] [] []];
        try reflexivity; discriminate.
Qed.

(** The double nearest to an integer that is not negative is a number
    that is not negative, or the positive infinity. *)
Lemma round_nonneg v :
  0 <= v ->
  (exists E, Dbl.round v = Dbl.Int E /\ 0 <= E) \/ Dbl.round v = Dbl.Inf false.
Proof.
  intros Hv. unfold Dbl.round. cbv zeta.
  destruct (Z.abs v <? 2 ^ 53); [left; eauto|].
  destruct (2 ^ 1024 <=? Dbl.nearest (Z.abs v)).
  - right. f_equal. apply Z.ltb_ge. exact Hv.
  - left. eexists. split; [reflexivity|].
    apply Z.mul_nonneg_nonneg; [lia|].
    unfold Dbl.nearest. cbv zeta.
    apply Z.mul_nonneg_nonneg; [|apply Z.pow_nonneg; lia].
    assert (Hq : 0 <= Z.abs v / 2 ^ (Z.log2 (Z.abs v) - 52)).
    { apply Z_div_nonneg_nonneg; [lia | apply Z.pow_nonneg; lia]. }
    destruct (_ || _); lia.
Qed.

(** X11.  Reading the expiry.  In a URL whose text before the first
    [&expire=] holds no ampersand, digits after it that end the text
    or stop at a character that is no digit are what the pattern
    captures.  Whatever URL it comes from, the signalled expiry is the
    double nearest to the integer the captured digits denote: that
    integer itself when it is below 2^53 (and then the absolute expiry
    [getInfo] derives is that integer less 900), and in every case a
    number that is not negative or the positive infinity, never [NaN].
    From 2^53 on the digits are rounded, 9007199254740993 to
    9007199254740992. *)
Theorem signaled_expiry_decodes :
  (forall p d r,
     lacks "&" p = true -> d <> EmptyString -> all_digits d = true ->
     starts_with_digit r = false ->
     Str.exec_expire (p +:+ "&expire=" +:+ d +:+ r) = Some d
     /\ signaled_expiry (p +:+ "&expire=" +:+ d +:+ r) = Some (Str.parseInt d)) /\
  (forall u d, Str.exec_expire u = Some d ->
     signaled_expiry u = Some (Dbl.round (decimal 0 d))
     /\ 0 <= decimal 0 d
     /\ (decimal 0 d < 2 ^ 53 -> signaled_expiry u = Some (Dbl.Int (decimal 0 d)))
     /\ ((exists E, signaled_expiry u = Some (Dbl.Int E) /\ 0 <= E)
         \/ signaled_expiry u = Some (Dbl.Inf false))) /\
  (forall info best u d,
     Format.url best = Some u -> Str.exec_expire u = Some d ->
     decimal 0 d < 2 ^ 53 ->
     raw_expires info best = Some (Dbl.Int (decimal 0 d - 900))) /\
  signaled_expiry "&expire=9007199254740993" = Some (Dbl.Int 9007199254740992).
Proof.
  assert (Hsig : forall u d, Str.exec_expire u = Some d ->
            signaled_expiry u = Some (Dbl.round (decimal 0 d)) /\ 0 <= decimal 0 d).
  { intros u d Hd. unfold signaled_expiry. rewrite Hd.
    destruct (exec_expire_digits u d Hd) as [Hne Hall].
    destruct (parseInt_digits d Hne Hall) as (-> & Hpos). auto. }
  split; [|split; [|split]].
  - intros p d r Hp Hne Hd Hr.
    assert (Hexec : Str.exec_expire (p +:+ "&expire=" +:+ d +:+ r) = Some d).
    { induction p as [|c p IH]; rewrite exec_expire_eq.
      - change (Str.strip_prefix "&expire=" (EmptyString +:+ "&expire=" +:+ d +:+ r))
          with (Some (d +:+ r)).
        cbv beta iota. rewrite (span_digits_app d r Hd Hr).
        destruct d; [congruence | reflexivity].
      - cbn [lacks] in Hp. apply andb_true_iff in Hp as [Hc Hp].
        change (Str.strip_prefix "&expire=" (String c p +:+ "&expire=" +:+ d +:+ r))
          with (if Ascii.eqb "&" c
                then Str.strip_prefix "expire=" (p +:+ "&expire=" +:+ d +:+ r)
                else None).
        apply negb_true_iff in Hc. rewrite Hc. cbv beta iota. now apply IH. }
    split; [exact Hexec|]. unfold signaled_expiry. now rewrite Hexec.
  - intros u d Hd. destruct (Hsig u d Hd) as [Hs Hpos].
    split; [exact Hs|]. split; [exact Hpos|]. split.
    + intros Hlt. rewrite Hs, round_exact by lia. reflexivity.
    + rewrite Hs. destruct (round_nonneg _ Hpos) as [(E & -> & HE) | ->]; eauto.
  - intros info best u d Hu Hd Hlt. destruct (Hsig u d Hd) as [Hs Hpos].
    assert (Hne : has_url best = true).
    { unfold has_url. rewrite Hu. destruct u; [discriminate | reflexivity]. }
    rewrite (raw_expires_signaled info best u _ Hu Hne Hs).
    rewrite (round_exact (decimal 0 d)) by lia. cbn [Dbl.sub].
    rewrite round_exact; [reflexivity|].
    change (2 ^ 53) with 9007199254740992 in *. lia.
  - reflexivity.
Qed.

Lemma signaled_expiry_decodes_witness :
  Str.exec_expire (Sample.stream_url "250") = Some "1500000000"
  /\ signaled_expiry (Sample.stream_url "250") = Some (Str.parseInt "1500000000").
Proof.
  exact (proj1 signaled_expiry_decodes
           "https://r4.example.net/videoplayback?id=o-AB" "1500000000" "&itag=250"
           eq_refl ltac:(discriminate) eq_refl eq_refl).
Defined.

(** ** The play transition, path by path *)

Lemma alone_with_bot_iff w channel :
  alone_with_bot w channel = true
  <-> voiceMembers channel = {[ client_user_id w ]}.
Proof.
  unfold alone_with_bot. rewrite andb_true_iff, Z.eqb_eq, bool_decide_eq_true.
  split.
  - intros [Hsize Hin]. assert (Hs : size (voiceMembers channel) = 1%nat) by lia.
    apply size_1_elem_of in Hs as [x Hx]. apply leibniz_equiv in Hx.
    rewrite Hx in Hin |- *. apply elem_of_singleton in Hin. now subst.
  - intros ->. rewrite size_singleton. split; [reflexivity | set_solver].
Qed.

(** X12.  The bot left alone.  When the bot is the only member of the
    voice channel, [play], with or without metadata and whatever the
    queue holds, does one thing: it calls the stop of the player with
    [immediate] set.  The queue keeps all its items. *)
Theorem play_alone_stops fuel w channel mediaInfo st :
  voiceMembers channel = {[ client_user_id w ]} ->
  exists st',
    play (S fuel) w channel mediaInfo st = (st', Resolved Stopped)
    /\ calls st' = calls st ++ [CallStop channel true]
    /\ queue st' = queue st
    /\ getPlayingState channel st' = false.
Proof.
  intros Halone. apply alone_with_bot_iff in Halone.
  rewrite play_S, Halone. unfold Player.stop. eexists. split; [reflexivity|].
  repeat split. unfold getPlayingState. simpl. rewrite lookup_alter_eq.
  now destruct (voiceConnections st !! guild_id channel).
Qed.

Lemma play_alone_stops_witness :
  exists st',
    play 1 (Sample.world GetNil "212") Cases.deserted
      (Some (Formatted (Sample.media 212))) Sample.playing
    = (st', Resolved Stopped)
    /\ calls st' = calls Sample.playing ++ [CallStop Cases.deserted true]
    /\ queue st' = queue Sample.playing
    /\ getPlayingState Cases.deserted st' = false.
Proof.
  exact (play_alone_stops 0 (Sample.world GetNil "212") Cases.deserted
           (Some (Formatted (Sample.media 212))) Sample.playing eq_refl).
Defined.

(** [play] with metadata, once past the first branch. *)
Lemma play_supplied fuel w channel mediaInfo supplied st :
  alone_with_bot w channel = false ->
  given mediaInfo = Some supplied ->
  play (S fuel) w channel mediaInfo st =
    match Queue.items (guild_id channel) st with
    | [] => (st, Rejected noSongs)
    | _ :: rest =>
        Player.play w channel supplied
          (Some (volume_or_default (guild_id channel) st))
          (with_queue <[guild_id channel := rest]> st)
    end.
Proof.
  intros Halone Hgiven. rewrite play_S, Halone.
  unfold bind, Queue.getLength, Queue.shift, read, reject. cbv zeta.
  destruct (Queue.items (guild_id channel) st) as [|item rest] eqn:Hq;
    [reflexivity|].
  cbn [List.length]. destruct (Z.eqb_spec (Z.of_nat (S (List.length rest))) 0); [lia|].
  cbv beta iota. rewrite Hq. cbv beta iota. now rewrite Hgiven.
Qed.

(** X13.  Explicit metadata does not replace the queue.  When [play]
    is handed metadata (and the bot is not alone), an empty queue still
    ends it with [noSongs] and the metadata is not played; with a
    non-empty queue the head of the queue is removed and dropped, and
    what the player is asked to play is the metadata handed in, at the
    volume of the guild, without any resolution (cache and resolver
    have no say). *)
Theorem play_with_metadata fuel w channel mediaInfo supplied st :
  alone_with_bot w channel = false ->
  given mediaInfo = Some supplied ->
  (Queue.items (guild_id channel) st = [] ->
     play (S fuel) w channel mediaInfo st = (st, Rejected noSongs)) /\
  (forall item rest,
     Queue.items (guild_id channel) st = item :: rest ->
     exists st' r,
       play (S fuel) w channel mediaInfo st = (st', r)
       /\ Queue.items (guild_id channel) st' = rest
       /\ calls st' = calls st
                      ++ [CallPlay channel supplied
                            (Some (volume_or_default (guild_id channel) st))]
       /\ (player_play_fails w channel supplied = None ->
           r = Resolved Started /\ getPlayingState channel st' = true)
       /\ (forall e, player_play_fails w channel supplied = Some e ->
           r = Rejected (Thrown e))
       /\ (forall w',
             client_user_id w' = client_user_id w ->
             player_play_fails w' = player_play_fails w ->
             play (S fuel) w' channel mediaInfo st = (st', r))).
Proof.
  intros Halone Hgiven. split.
  - intros Hq. now rewrite (play_supplied _ _ _ _ _ _ Halone Hgiven), Hq.
  - intros item rest Hq.
    rewrite (play_supplied _ _ _ _ _ _ Halone Hgiven), Hq. unfold Player.play.
    assert (Hw' : forall w', client_user_id w' = client_user_id w ->
                             alone_with_bot w' channel = false).
    { intros w' Hid. unfold alone_with_bot in *. now rewrite Hid. }
    destruct (player_play_fails w channel supplied) as [e|] eqn:Hp;
      eexists; eexists; (split; [reflexivity|]).
    + split; [unfold Queue.items; simpl; now rewrite lookup_insert_eq|].
      split; [reflexivity|]. split; [discriminate|]. split; [now intros ? [= <-]|].
      intros w' Hid Hpl.
      rewrite (play_supplied _ _ _ _ _ _ (Hw' w' Hid) Hgiven), Hq.
      unfold Player.play. now rewrite Hpl, Hp.
    + split; [unfold Queue.items; simpl; now rewrite lookup_insert_eq|].
      split; [reflexivity|].
      split; [intros _; split; [reflexivity|];
              unfold getPlayingState; simpl; now rewrite lookup_insert_eq|].
      split; [discriminate|].
      intros w' Hid Hpl.
      rewrite (play_supplied _ _ _ _ _ _ (Hw' w' Hid) Hgiven), Hq.
      unfold Player.play. now rewrite Hpl, Hp.
Qed.

Lemma play_with_metadata_witness :
  play 1 (Sample.world GetNil "212") Sample.voice
    (Some (Formatted (Sample.media 212))) Sample.idle
  = (Sample.idle, Rejected noSongs).
Proof.
  exact (proj1 (play_with_metadata 0 (Sample.world GetNil "212") Sample.voice
                  (Some (Formatted (Sample.media 212))) (Formatted (Sample.media 212))
                  Sample.idle eq_refl eq_refl) eq_refl).
Defined.

(** [play] without metadata, when the head of the queue resolves. *)
Lemma play_resolves fuel w channel mediaInfo st item rest url resolved :
  alone_with_bot w channel = false ->
  given mediaInfo = None ->
  Queue.items (guild_id channel) st = item :: rest ->
  InfoProp.url item = Some url ->
  getInfo_of w url = Resolved resolved ->
  InfoProp.truthy resolved = true ->
  play (S fuel) w channel mediaInfo st =
    Player.play w channel resolved
      (Some (volume_or_default (guild_id channel) st))
      (if getPlayingState channel st
       then fst (Player.stop channel false
                   (with_queue <[guild_id channel := rest]> st))
       else with_queue <[guild_id channel := rest]> st).
Proof.
  intros Halone Hgiven Hq Hurl Hinfo Hlive. rewrite play_S, Halone.
  unfold bind, Queue.getLength, Queue.shift, read, reject, settle, ret, chosen_url,
    prop.
  cbv zeta. rewrite Hq. cbn [List.length].
  destruct (Z.eqb_spec (Z.of_nat (S (List.length rest))) 0); [lia|].
  cbv beta iota. rewrite Hq. cbv beta iota. rewrite Hgiven. cbv beta iota.
  rewrite Hurl. cbv beta iota. rewrite Hinfo. cbv beta iota. rewrite Hlive.
  cbn [negb]. cbv beta iota.
  change (getPlayingState channel (with_queue <[guild_id channel := rest]> st))
    with (getPlayingState channel st).
  destruct (getPlayingState channel st); reflexivity.
Qed.

(** X14.  What is played is resolved afresh.  Without metadata (and
    with the bot not alone), [play] takes the head off the queue, hands
    its [url] to [getInfo] and asks the player for what comes back, not
    for the queued item, at the volume of the guild; a stop goes first
    exactly when the session was playing.  A head without a string
    [url] ends the call with a [TypeError], after the head has left the
    queue. *)
Theorem play_resolves_head fuel w channel st item rest :
  alone_with_bot w channel = false ->
  Queue.items (guild_id channel) st = item :: rest ->
  (forall u resolved,
     InfoProp.url item = Some (Js.VStr u) ->
     getInfo w u false = Resolved resolved ->
     InfoProp.truthy resolved = true ->
     exists st' r,
       play (S fuel) w channel None st = (st', r)
       /\ Queue.items (guild_id channel) st' = rest
       /\ calls st' = calls st
                      ++ (if getPlayingState channel st
                          then [CallStop channel false] else [])
                      ++ [CallPlay channel resolved
                            (Some (volume_or_default (guild_id channel) st))]
       /\ (player_play_fails w channel resolved = None ->
           r = Resolved Started /\ getPlayingState channel st' = true)) /\
  (forall v,
     InfoProp.url item = Some v -> (forall u, v <> Js.VStr u) ->
     play (S fuel) w channel None st
     = (with_queue <[guild_id channel := rest]> st, Rejected TypeError)) /\
  (InfoProp.url item = None ->
     play (S fuel) w channel None st
     = (with_queue <[guild_id channel := rest]> st, Rejected TypeError)).
Proof.
  intros Halone Hq. split; [|split].
  - intros u resolved Hurl Hinfo Hlive.
    rewrite (play_resolves fuel w channel None st item rest (Js.VStr u) resolved);
      auto.
    unfold Player.play, Player.stop.
    destruct (getPlayingState channel st);
      destruct (player_play_fails w channel resolved) eqn:Hp;
      eexists; eexists; (split; [reflexivity|]); simpl;
      (split; [unfold Queue.items; simpl; now rewrite lookup_insert_eq|]);
      rewrite <- ?app_assoc; (split; [reflexivity|]);
      intros; try discriminate;
      (split; [reflexivity|]); unfold getPlayingState; simpl;
      now rewrite lookup_insert_eq.
  - intros v Hurl Hv. rewrite play_S, Halone.
    unfold bind, Queue.getLength, Queue.shift, read, reject, settle, chosen_url, prop.
    cbv zeta. rewrite Hq. cbn [List.length].
    destruct (Z.eqb_spec (Z.of_nat (S (List.length rest))) 0); [lia|].
    cbv beta iota. rewrite Hq. cbv beta iota. cbn [given]. cbv beta iota.
    rewrite Hurl. cbv beta iota.
    destruct v; try reflexivity. now destruct (Hv s).
  - intros Hurl. rewrite play_S, Halone.
    unfold bind, Queue.getLength, Queue.shift, read, reject, settle, chosen_url, prop.
    cbv zeta. rewrite Hq. cbn [List.length].
    destruct (Z.eqb_spec (Z.of_nat (S (List.length rest))) 0); [lia|].
    cbv beta iota. rewrite Hq. cbv beta iota. cbn [given]. cbv beta iota.
    now rewrite Hurl.
Qed.

Lemma play_resolves_head_witness :
  exists st' r,
    play 1 (Sample.world GetNil "212") Sample.voice None Sample.playing = (st', r)
    /\ Queue.items "g1" st' = []
    /\ calls st' = [CallStop Sample.voice false;
                    CallPlay Sample.voice (Formatted (Sample.media 212))
                      (Some (Js.of_Z 2))]
    /\ (player_play_fails (Sample.world GetNil "212") Sample.voice
          (Formatted (Sample.media 212)) = None ->
        r = Resolved Started /\ getPlayingState Sample.voice st' = true).
Proof.
  exact (proj1 (play_resolves_head 0 (Sample.world GetNil "212") Sample.voice
                  Sample.playing (Formatted (Sample.media 200)) [] eq_refl eq_refl)
           Sample.watch_url (Formatted (Sample.media 212)) eq_refl eq_refl eq_refl).
Defined.

(** ** What [play] leaves alone *)

Lemma touches_only_refl g1 g2 st : touches_only g1 g2 st st.
Proof. unfold touches_only. auto 10. Qed.

Lemma touches_only_trans g1 g2 a b c :
  touches_only g1 g2 a b -> touches_only g1 g2 b c -> touches_only g1 g2 a c.
Proof.
  unfold touches_only. intros (H1 & H2 & H3 & H4 & H5) (K1 & K2 & K3 & K4 & K5).
  repeat split; try congruence;
    destruct (H5 g) as [? ?]; destruct (K5 g) as [? ?]; auto; congruence.
Qed.

Lemma touches_only_queue g1 g2 f st :
  (forall q g, g <> g1 -> g <> g2 -> f q !! g = q !! g) ->
  touches_only g1 g2 st (with_queue f st).
Proof. unfold touches_only. simpl. auto 10. Qed.

Lemma touches_only_voice g1 g2 f st :
  (forall q g, g <> g1 -> g <> g2 -> f q !! g = q !! g) ->
  touches_only g1 g2 st (with_voiceConnections f st).
Proof. unfold touches_only. simpl. auto 10. Qed.

Lemma touches_only_call g1 g2 c st : touches_only g1 g2 st (with_call c st).
Proof. unfold touches_only. simpl. auto 10. Qed.

Lemma player_play_touches g1 w channel mediaInfo vol st :
  touches_only g1 (guild_id channel) st
    (fst (Player.play w channel mediaInfo vol st)).
Proof.
  unfold Player.play. destruct (player_play_fails w channel mediaInfo); simpl.
  - apply touches_only_call.
  - eapply touches_only_trans; [apply touches_only_call|].
    apply touches_only_voice. intros q g _ Hg. now rewrite lookup_insert_ne.
Qed.

Lemma player_stop_touches g1 channel immediate st :
  touches_only g1 (guild_id channel) st (fst (Player.stop channel immediate st)).
Proof.
  unfold Player.stop. simpl.
  eapply touches_only_trans; [apply touches_only_call|].
  apply touches_only_voice. intros q g _ Hg. now rewrite lookup_alter_ne.
Qed.

Lemma play_touches fuel :
  forall w channel mediaInfo st,
    touches_only (guild_id channel) (guild_id channel) st
      (fst (play fuel w channel mediaInfo st)).
Proof.
  induction fuel as [|fuel IH]; intros w channel mediaInfo st.
  { apply touches_only_refl. }
  rewrite play_S. destruct (alone_with_bot w channel).
  { apply player_stop_touches. }
  unfold bind, Queue.getLength, Queue.shift, Queue.remove, read, reject, settle,
    update, ret.
  cbv zeta.
  destruct (Z.of_nat (List.length (Queue.items (guild_id channel) st)) =? 0);
    [apply touches_only_refl|].
  destruct (Queue.items (guild_id channel) st) as [|item rest];
    [apply touches_only_refl|].
  assert (Hshift : touches_only (guild_id channel) (guild_id channel) st
                     (with_queue <[guild_id channel := rest]> st)).
  { apply touches_only_queue. intros q g Hg _. now rewrite lookup_insert_ne. }
  cbv beta iota.
  destruct (given mediaInfo) as [supplied|].
  { eapply touches_only_trans; [exact Hshift | apply player_play_touches]. }
  destruct (chosen_url mediaInfo item) as [url| |]; try exact Hshift.
  destruct (getInfo_of w url) as [resolved| |]; try exact Hshift.
  destruct (negb (InfoProp.truthy resolved)).
  - eapply touches_only_trans; [exact Hshift|].
    eapply touches_only_trans; [|apply IH].
    apply touches_only_queue. intros q g Hg _. now rewrite lookup_delete_ne.
  - change (getPlayingState channel (with_queue <[guild_id channel := rest]> st))
      with (getPlayingState channel st).
    destruct (getPlayingState channel st); cbv beta iota.
    + eapply touches_only_trans; [exact Hshift|].
      eapply touches_only_trans; [apply (player_stop_touches _ channel false)|].
      apply player_play_touches.
    + eapply touches_only_trans; [exact Hshift | apply player_play_touches].
Qed.

(** X15.  Sessions do not interfere.  Whatever [play] does for a
    channel, and however it ends, it leaves the bindings, the volumes,
    the votes and the log as they were, and it leaves the queue and the
    voice connection of every other guild as they were. *)
Theorem play_keeps_other_sessions fuel w channel mediaInfo st :
  let st' := fst (play fuel w channel mediaInfo st) in
  connections st' = connections st
  /\ volume st' = volume st
  /\ votes st' = votes st
  /\ log st' = log st
  /\ (forall g, g <> guild_id channel ->
        Queue.items g st' = Queue.items g st
        /\ voiceConnections st' !! g = voiceConnections st !! g).
Proof.
  cbv zeta.
  destruct (play_touches fuel w channel mediaInfo st) as (H1 & H2 & H3 & H4 & H5).
  repeat split; auto; destruct (H5 g H H) as [Hq Hv]; [|exact Hv].
  unfold Queue.items. now rewrite Hq.
Qed.

Lemma play_keeps_other_sessions_witness :
  Queue.items "g2"
    (fst (play 2 (Sample.world GetNil "212") Sample.voice None
            (with_queue <["g2" := [Formatted (Sample.media 300)]]> Sample.playing)))
  = [Formatted (Sample.media 300)].
Proof.
  exact (proj1 (proj2 (proj2 (proj2 (proj2
           (play_keeps_other_sessions 2 (Sample.world GetNil "212") Sample.voice None
              (with_queue <["g2" := [Formatted (Sample.media 300)]]> Sample.playing)))))
           "g2" ltac:(discriminate))).
Defined.

(** ** Volume *)




(** ** [queueSong] without a ready audio URL *)

(** X17.  An idle session and metadata without [audiourl].  The item is
    put at the front of the queue and [play] takes it off again at
    once: its [url] is resolved afresh, the player is asked for the
    fresh metadata, the queue ends as it began, and the method still
    resolves with the metadata it was given.  When reading [audiourl]
    throws (the metadata is [null]), the method rejects with a
    [TypeError] after the item went into the queue, where it stays. *)
Theorem queueSong_without_audiourl fuel w voiceChannel mediaInfo st :
  getPlayingState voiceChannel st = false ->
  (forall a u resolved,
     alone_with_bot w voiceChannel = false ->
     InfoProp.audiourl mediaInfo = Some a -> Js.truthy a = false ->
     InfoProp.url mediaInfo = Some (Js.VStr u) ->
     getInfo w u false = Resolved resolved ->
     InfoProp.truthy resolved = true ->
     player_play_fails w voiceChannel resolved = None ->
     exists st',
       queueSong (S fuel) w (guild_id voiceChannel) voiceChannel mediaInfo st
       = (st', Resolved mediaInfo)
       /\ Queue.items (guild_id voiceChannel) st'
          = Queue.items (guild_id voiceChannel) st
       /\ calls st' = calls st
                      ++ [CallPlay voiceChannel resolved
                            (Some (volume_or_default (guild_id voiceChannel) st))]
       /\ getPlayingState voiceChannel st' = true) /\
  (forall guildId,
     InfoProp.audiourl mediaInfo = None ->
     exists st',
       queueSong fuel w guildId voiceChannel mediaInfo st = (st', Rejected TypeError)
       /\ Queue.items guildId st' = mediaInfo :: Queue.items guildId st
       /\ calls st' = calls st).
Proof.
  intros Hidle. split.
  - intros a u resolved Halone Ha Hfalsy Hurl Hinfo Hlive Hok.
    unfold queueSong, bind, read, Queue.add, settle, prop, ret.
    rewrite Hidle. cbn [negb]. cbv beta iota. rewrite Ha. cbv beta iota.
    rewrite Hfalsy. cbv beta iota.
    set (st1 := with_queue
                  <[guild_id voiceChannel :=
                      mediaInfo :: Queue.items (guild_id voiceChannel) st]> st).
    rewrite (play_resolves fuel w voiceChannel None st1 mediaInfo
               (Queue.items (guild_id voiceChannel) st) (Js.VStr u) resolved);
      auto; [|apply items_set].
    change (getPlayingState voiceChannel st1) with (getPlayingState voiceChannel st).
    rewrite Hidle. unfold Player.play. rewrite Hok. cbv beta iota.
    eexists. split; [reflexivity|]. simpl.
    split; [unfold Queue.items; simpl; rewrite lookup_insert_eq; reflexivity|].
    split; [reflexivity|].
    unfold getPlayingState. simpl. now rewrite lookup_insert_eq.
  - intros guildId Ha.
    unfold queueSong, bind, read, Queue.add, settle, prop.
    rewrite Hidle. cbn [negb]. cbv beta iota. rewrite Ha.
    eexists. split; [reflexivity|]. split; [apply items_set | reflexivity].
Qed.

Lemma queueSong_without_audiourl_witness :
  exists st',
    queueSong 1 (Sample.world GetNil "212") "g1" Sample.voice Cases.full Sample.idle
    = (st', Resolved Cases.full)
    /\ Queue.items "g1" st' = []
    /\ calls st' = [CallPlay Sample.voice (Formatted (Sample.media 212))
                      (Some (Js.of_Z 2))]
    /\ getPlayingState Sample.voice st' = true.
Proof.
  exact (proj1 (queueSong_without_audiourl 0 (Sample.world GetNil "212") Sample.voice
                  Cases.full Sample.idle eq_refl)
           Js.VUndefined Sample.watch_url (Formatted (Sample.media 212))
           eq_refl eq_refl eq_refl eq_refl eq_refl eq_refl eq_refl).
Defined.

(** ** Admission, edge by edge *)

(** X18.  The forms of a reference.  An object with a string [url]
    is admitted exactly like that string; an array, and every other
    value that is not [null], not a string and has no string [url], is
    rejected with [invalidURL] before anything is resolved or queued. *)
Theorem add_input_forms fuel w guildId voiceChannel st :
  (forall fields s,
     Js.lookup_field "url" fields = Some (Js.VStr s) ->
     add fuel w guildId voiceChannel (Js.VObj fields) st
     = add fuel w guildId voiceChannel (Js.VStr s) st) /\
  (forall url,
     url <> Js.VNull -> (forall s, url <> Js.VStr s) ->
     (forall s, Js.get url "url" <> Some (Js.VStr s)) ->
     add fuel w guildId voiceChannel url st = (st, Rejected invalidURL)) /\
  (forall elems,
     add fuel w guildId voiceChannel (Js.VArr elems) st = (st, Rejected invalidURL)).
Proof.
  split; [|split].
  - intros fields s Hurl. unfold add, bind, settle. simpl. now rewrite Hurl.
  - intros url. apply add_rejects_invalid.
  - intros elems. reflexivity.
Qed.

Lemma add_input_forms_witness :
  add 2 (Sample.world GetNil "212") "g1" Sample.voice
    (Js.VObj [("url", Js.VStr Sample.reference)]) Sample.idle
  = add 2 (Sample.world GetNil "212") "g1" Sample.voice
      (Js.VStr Sample.reference) Sample.idle
  /\ add 2 (Sample.world GetNil "212") "g1" Sample.voice
       (Js.VNum (Js.of_Z 7)) Sample.idle
     = (Sample.idle, Rejected invalidURL).
Proof.
  split.
  - exact (proj1 (add_input_forms 2 (Sample.world GetNil "212") "g1" Sample.voice
                    Sample.idle)
             [("url", Js.VStr Sample.reference)] Sample.reference eq_refl).
  - apply (proj1 (proj2 (add_input_forms 2 (Sample.world GetNil "212") "g1"
                           Sample.voice Sample.idle)));
      [discriminate | discriminate | intros s; discriminate].
Defined.

(** X19.  A duration that is no number passes the limit.  Metadata
    whose [length] is [NaN] (the resolver gave no parsable
    [length_seconds]) or 0 is never rejected as too long: it goes to
    [queueSong]. *)
Theorem add_unknown_duration fuel w guildId voiceChannel s m st :
  getInfo w (Str.replace_first "/<|>/g" EmptyString s) false
    = Resolved (Formatted m) ->
  Media.length m = Dbl.NaN \/ Media.length m = Dbl.Int 0 ->
  add fuel w guildId voiceChannel (Js.VStr s) st
  = queueSong fuel w guildId voiceChannel (Formatted m) st.
Proof.
  intros H Hlen. rewrite (add_string _ _ _ _ _ _ _ H).
  unfold too_long. simpl. destruct Hlen as [-> | ->]; reflexivity.
Qed.

Lemma add_unknown_duration_witness :
  exists m,
    Media.length m = Dbl.NaN
    /\ add 2 (Sample.world GetNil "unknown") "g1" Sample.voice
         (Js.VStr Sample.reference) Sample.playing
       = queueSong 2 (Sample.world GetNil "unknown") "g1" Sample.voice
           (Formatted m) Sample.playing.
Proof.
  eexists. split; [|apply (add_unknown_duration 2 (Sample.world GetNil "unknown") "g1"
                             Sample.voice Sample.reference _ Sample.playing eq_refl)].
  - reflexivity.
  - left. reflexivity.
Defined.

(** X20.  A cache entry [null].  When the reference resolves to [null]
    (the cache holds the text [null]), [add] does not stop at the
    entry: on an idle session it puts [null] at the front of the queue
    and then rejects with a [TypeError]; on a playing session it
    appends [null] and resolves.  Either way [null] is in the queue
    afterwards. *)
Theorem add_null_entry fuel w guildId voiceChannel s st :
  getInfo w (Str.replace_first "/<|>/g" EmptyString s) false
    = Resolved (Parsed Js.VNull) ->
  (getPlayingState voiceChannel st = false ->
   exists st',
     add fuel w guildId voiceChannel (Js.VStr s) st = (st', Rejected TypeError)
     /\ Queue.items guildId st' = Parsed Js.VNull :: Queue.items guildId st
     /\ calls st' = calls st) /\
  (getPlayingState voiceChannel st = true ->
   exists st',
     add fuel w guildId voiceChannel (Js.VStr s) st
     = (st', Resolved (Parsed Js.VNull))
     /\ Queue.items guildId st' = Queue.items guildId st ++ [Parsed Js.VNull]
     /\ calls st' = calls st).
Proof.
  intros H. rewrite (add_string _ _ _ _ _ _ _ H).
  change (too_long (Parsed Js.VNull)) with false. cbv iota.
  unfold queueSong, bind, read, Queue.add, settle, prop, ret. split.
  - intros ->. simpl. eexists. split; [reflexivity|].
    split; [apply items_set | reflexivity].
  - intros ->. simpl. eexists. split; [reflexivity|].
    split; [apply items_set | reflexivity].
Qed.

Lemma add_null_entry_witness :
  exists st',
    add 2 (Sample.world (GetBulk "null") "212") "g1" Sample.voice
      (Js.VStr Sample.reference) Sample.idle
    = (st', Rejected TypeError)
    /\ Queue.items "g1" st' = [Parsed Js.VNull]
    /\ calls st' = [].
Proof.
  exact (proj1 (add_null_entry 2 (Sample.world (GetBulk "null") "212") "g1"
                  Sample.voice Sample.reference Sample.idle eq_refl) eq_refl).
Defined.

(** ** Skips, case by case *)

(** X21.  Nothing to skip to.  With at most one item in the queue of
    the guild, [skip] resolves at once and changes nothing, forced or
    not, whoever asks and even when the requester is in no voice
    channel: no vote is counted and the player is not called. *)
Theorem skip_nothing_to_skip msg force st :
  Z.of_nat (List.length (Queue.items (msg_guild_id msg) st)) <= 1 ->
  skip msg force st = (st, Resolved nothingToSkip).
Proof.
  intros Hq. unfold skip, bind, Queue.getLength, read, ret. cbv beta iota zeta.
  destruct (Z.leb_spec (Z.of_nat (List.length (Queue.items (msg_guild_id msg) st))) 1);
    [reflexivity | lia].
Qed.

Lemma skip_nothing_to_skip_witness :
  skip (Sample.vote_msg "u1") true Sample.playing
  = (Sample.playing, Resolved nothingToSkip).
Proof.
  apply skip_nothing_to_skip. vm_compute. discriminate.
Defined.

(** X22.  Skips without a vote.  With more than one item queued, a
    forced skip, and any skip in a channel of at most two members, goes
    straight to the player and does not touch [this.votes] (a forced
    skip clears no vote).  A skip that is
    not forced by a requester whose voice channel the client does not
    know ends with a [TypeError]. *)
Theorem skip_without_vote msg force st :
  1 < Z.of_nat (List.length (Queue.items (msg_guild_id msg) st)) ->
  (force = true
   \/ (exists c, voice_channel msg = Some c /\ members c <= 2) ->
   skip msg force st
   = (with_call (CallSkip (msg_guild_id msg) (voice_channel msg)) st,
      Resolved playerSkip)) /\
  (force = false -> voice_channel msg = None ->
   skip msg force st = (st, Rejected TypeError)).
Proof.
  intros Hq.
  unfold skip, bind, Queue.getLength, read, settle, ret, update, Player.skip,
    needs_vote.
  cbv beta iota zeta.
  destruct (Z.leb_spec (Z.of_nat (List.length (Queue.items (msg_guild_id msg) st))) 1);
    [lia|].
  split.
  - intros [-> | (c & Hc & Hm)]; [reflexivity|].
    destruct force; [reflexivity|]. rewrite Hc. cbv beta iota.
    destruct (Z.ltb_spec 2 (members c)); [lia | reflexivity].
  - intros -> ->. reflexivity.
Qed.

Lemma skip_without_vote_witness :
  skip {| msg_guild_id := "g1"; author_id := "u1"; voice_channel := Some Cases.duo |}
    false Sample.two_queued
  = (with_call (CallSkip "g1" (Some Cases.duo)) Sample.two_queued,
     Resolved playerSkip).
Proof.
  apply (proj1 (skip_without_vote
                  {| msg_guild_id := "g1"; author_id := "u1";
                     voice_channel := Some Cases.duo |}
                  false Sample.two_queued ltac:(vm_compute; reflexivity))).
  right. exists Cases.duo. split; [reflexivity | vm_compute; discriminate].
Defined.

(** ** What admission leaves alone *)

Lemma touches_only_widen a b c d st st' :
  (forall g, g <> c -> g <> d -> g <> a /\ g <> b) ->
  touches_only a b st st' -> touches_only c d st st'.
Proof.
  unfold touches_only. intros Hw (H1 & H2 & H3 & H4 & H5).
  repeat split; auto; destruct (Hw g H H0) as [Ha Hb]; now apply H5.
Qed.

Lemma queueSong_touches fuel w guildId voiceChannel mediaInfo st :
  touches_only guildId (guild_id voiceChannel) st
    (fst (queueSong fuel w guildId voiceChannel mediaInfo st)).
Proof.
  unfold queueSong, bind, read, Queue.add, settle, prop, ret. cbv beta iota.
  assert (Hadd : forall q,
             touches_only guildId (guild_id voiceChannel) st
               (with_queue <[guildId := q]> st)).
  { intros q. apply touches_only_queue. intros m g Hg _. now rewrite lookup_insert_ne. }
  destruct (getPlayingState voiceChannel st); cbn [negb]; cbv beta iota;
    [apply Hadd|].
  destruct (InfoProp.audiourl mediaInfo) as [a|]; cbv beta iota; [|apply Hadd].
  destruct (Js.truthy a); cbv beta iota.
  - pose proof (player_play_touches guildId w voiceChannel mediaInfo None
                  (with_queue <[guildId := mediaInfo :: Queue.items guildId st]> st))
      as Hp.
    destruct (Player.play w voiceChannel mediaInfo None _) as [st1 [r|e|]];
      simpl in *; eapply touches_only_trans; eauto.
  - pose proof (play_touches fuel w voiceChannel None
                  (with_queue <[guildId := mediaInfo :: Queue.items guildId st]> st))
      as Hp.
    apply (touches_only_widen _ _ guildId (guild_id voiceChannel)) in Hp; [|auto].
    destruct (play fuel w voiceChannel None _) as [st1 [r|e|]];
      simpl in *; eapply touches_only_trans; eauto.
Qed.

(** X25.  Admission does not interfere.  However [add] ends, it leaves
    the bindings, the volumes, [this.votes] and the log as they were,
    and for every guild other than the one whose id it was given and
    the one of the voice channel (the two need not be the same: the
    item is queued under the first, [play] shifts the queue of the
    second) the queue and the voice connection are as they were. *)
Theorem add_keeps_other_sessions fuel w guildId voiceChannel url st :
  let st' := fst (add fuel w guildId voiceChannel url st) in
  connections st' = connections st
  /\ volume st' = volume st
  /\ votes st' = votes st
  /\ log st' = log st
  /\ (forall g, g <> guildId -> g <> guild_id voiceChannel ->
        Queue.items g st' = Queue.items g st
        /\ voiceConnections st' !! g = voiceConnections st !! g).
Proof.
  cbv zeta.
  assert (H : touches_only guildId (guild_id voiceChannel) st
                (fst (add fuel w guildId voiceChannel url st))).
  { unfold add, bind, settle, reject.
    destruct (if Js.typeof_object url then prop (Js.get url "url") else Resolved url)
      as [v|e|]; try apply touches_only_refl.
    destruct v; try apply touches_only_refl.
    destruct (getInfo w _ false) as [mediaInfo|e|]; try apply touches_only_refl.
    destruct (too_long mediaInfo); [apply touches_only_refl|].
    apply queueSong_touches. }
  destruct H as (H1 & H2 & H3 & H4 & H5).
  repeat split; auto; destruct (H5 g H H0) as [Hq Hv]; [|exact Hv].
  unfold Queue.items. now rewrite Hq.
Qed.

Lemma add_keeps_other_sessions_witness :
  Queue.items "g2"
    (fst (add 2 (Sample.world GetNil "212") "g1" Sample.voice
            (Js.VStr Sample.reference)
            (with_queue <["g2" := [Formatted (Sample.media 300)]]> Sample.idle)))
  = [Formatted (Sample.media 300)].
Proof.
  exact (proj1 (proj2 (proj2 (proj2 (proj2
           (add_keeps_other_sessions 2 (Sample.world GetNil "212") "g1" Sample.voice
              (Js.VStr Sample.reference)
              (with_queue <["g2" := [Formatted (Sample.media 300)]]> Sample.idle)))))
           "g2" ltac:(discriminate) ltac:(discriminate))).
Defined.

(** ** The order of the formats *)


